(** * CSV ingestion worker of the insurance service

    A shallow embedding of [src/worker.js] (the batch runner that turns CSV
    rows into Agent, User, Account, Category, Carrier and Policy documents)
    and of the part of [src/index.js] that starts the worker and answers the
    upload request ([processCSV] and the [/api/upload] handler). *)

From Stdlib Require Import ZArith QArith Qpower Ascii String List Lia.
From Stdlib Require Qcanon.
From stdpp Require Import base decidable option list gmap strings.

Local Open Scope string_scope.
Local Open Scope Z_scope.
Local Open Scope list_scope.

(** ** JavaScript values *)

Module JS.

(** A JavaScript Number as far as the worker produces one: the result of
    [parseInt] or [parseFloat] on a text, or the literal [0]. A finite number
    is a double, kept as the rational it is equal to, in lowest terms. [-0]
    is [0]: the worker passes every number through [||], which takes both
    for false. *)
Inductive Number :=
  | NaN
  | Infinity (negative : bool)
  | Finite (q : Q).

(** A Date object is its time value in milliseconds, [None] for the
    [NaN] time value of an Invalid Date. *)
Definition Date := option Z.

(** Values that are read from a row, built by the worker and kept by a
    model. *)
Inductive Value :=
  | VUndefined
  | VNull
  | VBool (b : bool)
  | VNum (n : Number)
  | VStr (s : string)
  | VDate (d : Date)
  | VId (oid : nat).

#[global] Instance Q_eq_dec : EqDecision Q.
Proof. solve_decision. Defined.
#[global] Instance Number_eq_dec : EqDecision Number.
Proof. solve_decision. Defined.
#[global] Instance Value_eq_dec : EqDecision Value.
Proof. solve_decision. Defined.

Definition zero : Number := Finite 0%Q.

Definition is_zero (q : Q) : bool := (Qnum q =? 0)%Z.

(** ToBoolean. *)
Definition truthy (v : Value) : bool :=
  match v with
  | VUndefined | VNull => false
  | VBool b => b
  | VNum NaN => false
  | VNum (Infinity _) => true
  | VNum (Finite q) => negb (is_zero q)
  | VStr s => negb (String.eqb s "")
  | VDate _ | VId _ => true
  end.

(** [a || b] *)
Definition or_else (a b : Value) : Value := if truthy a then a else b.

(** [a === b] for the operands the worker compares: a row field against a
    string literal. *)
Definition strict_eq_str (a : Value) (lit : string) : bool :=
  match a with
  | VStr s => String.eqb s lit
  | _ => false
  end.

(** ToString of a row field: a string stays, [undefined] prints as its
    name. *)
Definition ToString (f : option string) : string :=
  match f with
  | Some s => s
  | None => "undefined"
  end.

Definition of_field (f : option string) : Value :=
  match f with
  | Some s => VStr s
  | None => VUndefined
  end.

(** *** Scanning text *)

(** StrWhiteSpaceChar within the code units 0..255: TAB, LF, VT, FF, CR,
    SP and NBSP. *)
Definition is_white (c : ascii) : bool :=
  let n := nat_of_ascii c in
  ((9 <=? n) && (n <=? 13) || (n =? 32) || (n =? 160))%nat.

Fixpoint trim_start (s : string) : string :=
  match s with
  | String c rest => if is_white c then trim_start rest else s
  | EmptyString => s
  end.

(** The value of [c] as a digit of the radix, if it is one. *)
Definition digit_of (radix : nat) (c : ascii) : option nat :=
  let n := nat_of_ascii c in
  let v :=
    if ((48 <=? n) && (n <=? 57))%nat then Some (n - 48)%nat
    else if ((97 <=? n) && (n <=? 122))%nat then Some (n - 87)%nat
    else if ((65 <=? n) && (n <=? 90))%nat then Some (n - 55)%nat
    else None in
  match v with
  | Some d => if (d <? radix)%nat then Some d else None
  | None => None
  end.

(** The longest prefix of digits of the radix, most significant first, and
    the rest of the text. *)
Fixpoint digits (radix : nat) (s : string) : list nat * string :=
  match s with
  | String c rest =>
      match digit_of radix c with
      | Some d => let '(ds, tl) := digits radix rest in (d :: ds, tl)
      | None => ([], s)
      end
  | EmptyString => ([], s)
  end.

Definition number_of (radix : nat) (ds : list nat) : Z :=
  fold_left (fun acc d => acc * Z.of_nat radix + Z.of_nat d) ds 0.

(** An optional leading [+] or [-]: [true] for [-]. *)
Definition sign (s : string) : bool * string :=
  match s with
  | String "-" rest => (true, rest)
  | String "+" rest => (false, rest)
  | _ => (false, s)
  end.

Definition signed (negative : bool) (z : Z) : Z := if negative then - z else z.

(** *** The Number value for a rational

    The double nearest to the mathematical value, ties to the even
    significand, as the engine of Node reads a literal of any length:
    53 bits of significand, the last place no finer than [2 ^ -1074], and
    [Infinity] from [2 ^ 1024] on. *)

(** [n / d] rounded to an integer, ties to even, for [0 <= n] and [0 < d]. *)
Definition round_half_even (n d : Z) : Z :=
  let q := n / d in
  match 2 * (n mod d) ?= d with
  | Lt => q
  | Gt => q + 1
  | Eq => if Z.even q then q else q + 1
  end.

Definition to_double (x : Q) : Number :=
  let x := Qred x in
  let negative := Qnum x <? 0 in
  let n := Z.abs (Qnum x) in
  let d := Z.pos (Qden x) in
  if n =? 0 then Finite 0
  else
    (* [2 ^ e <= n / d < 2 ^ (e + 1)] *)
    let e0 := Z.log2 n - Z.log2 d in
    let below := if 0 <=? e0 then n <? d * 2 ^ e0 else n * 2 ^ (- e0) <? d in
    let e := if below then e0 - 1 else e0 in
    (* the exponent of the last place, and the significand *)
    let ulp := Z.max (e - 52) (-1074) in
    let m := if 0 <=? ulp then round_half_even n (d * 2 ^ ulp)
             else round_half_even (n * 2 ^ (- ulp)) d in
    if 1024 <=? Z.log2 m + ulp then Infinity negative
    else Finite (Qred (inject_Z (if negative then - m else m) * Qpower 2 ulp)).

(** *** parseInt(string), no radix given *)

Definition hex_prefix (s : string) : nat * string :=
  match s with
  | String "0" (String "x" rest) => (16%nat, rest)
  | String "0" (String "X" rest) => (16%nat, rest)
  | _ => (10%nat, s)
  end.

(** The integer [parseInt] reads, [None] where it answers [NaN]. *)
Definition parseInt_Z (text : string) : option Z :=
  let '(negative, s) := sign (trim_start text) in
  let '(radix, s) := hex_prefix s in
  match digits radix s with
  | ([], _) => None
  | (ds, _) => Some (signed negative (number_of radix ds))
  end.

Definition parseInt (f : option string) : Number :=
  match parseInt_Z (ToString f) with
  | Some z => to_double (inject_Z z)
  | None => NaN
  end.

(** *** parseFloat(string) *)

(** What the longest prefix that is a StrDecimalLiteral denotes, once the
    sign is gone: [Infinity], or digits with an optional fraction and an
    optional exponent, as [mantissa * 10 ^ exponent]. *)
Inductive Literal :=
  | LitInfinity
  | LitDecimal (mantissa : Z) (exponent : Z).

Definition starts_with (p s : string) : bool := String.prefix p s.

(** ExponentPart: [e] or [E], an optional sign and at least one digit;
    without the digits the exponent is not part of the literal. *)
Definition exponent_part (s : string) : Z :=
  match s with
  | String c rest =>
      if (Ascii.eqb c "e" || Ascii.eqb c "E")%bool then
        let '(negative, s') := sign rest in
        match digits 10 s' with
        | ([], _) => 0
        | (ds, _) => signed negative (number_of 10 ds)
        end
      else 0
  | EmptyString => 0
  end.

Definition unsigned_literal (s : string) : option Literal :=
  if starts_with "Infinity" s then Some LitInfinity
  else
    let '(int, s1) := digits 10 s in
    let '(frac, s2) :=
      match s1 with
      | String "." rest => digits 10 rest
      | _ => ([], s1)
      end in
    match int, frac with
    | [], [] => None
    | _, _ =>
        Some (LitDecimal (number_of 10 (int ++ frac))
                         (exponent_part s2 - Z.of_nat (length frac)))
    end.

Definition power10 (e : Z) : Q := Qpower (10 # 1) e.

Definition parseFloat (f : option string) : Number :=
  let '(negative, s) := sign (trim_start (ToString f)) in
  match unsigned_literal s with
  | None => NaN
  | Some LitInfinity => Infinity negative
  | Some (LitDecimal m e) =>
      to_double (inject_Z (signed negative m) * power10 e)
  end.

(** A text that starts like a number: after white space and an optional
    sign comes a digit, a dot and a digit, or the word Infinity. *)
Definition is_digit (c : ascii) : bool :=
  match digit_of 10 c with Some _ => true | None => false end.

Definition numeric (text : string) : bool :=
  let '(_, s) := sign (trim_start text) in
  (starts_with "Infinity" s ||
   match s with
   | String c rest =>
       is_digit c ||
       (Ascii.eqb c "." &&
        match rest with String d _ => is_digit d | EmptyString => false end)
   | EmptyString => false
   end)%bool.

End JS.

Import JS.

(** ** The models and their schemas (worker.js, lines 14 to 73) *)

Inductive Kind := Agent | User | Account | Category | Carrier | Policy.

#[global] Instance Kind_eq_dec : EqDecision Kind.
Proof. solve_decision. Defined.

Inductive SchemaType := TString | TDate | TNumber | TBoolean | TObjectId.

(** One path of a schema: [{ type, required, unique, default }]. *)
Record PathSpec := mkPath {
  path_name : string;
  path_type : SchemaType;
  required : bool;
  unique : bool;
  path_default : option Value
}.

#[global] Instance SchemaType_eq_dec : EqDecision SchemaType.
Proof. solve_decision. Defined.
#[global] Instance PathSpec_eq_dec : EqDecision PathSpec.
Proof. solve_decision. Defined.

Definition opt (name : string) (t : SchemaType) : PathSpec :=
  mkPath name t false false None.

Definition AgentSchema : list PathSpec :=
  [ mkPath "name" TString true false None;
    opt "agency_id" TString ].

Definition UserSchema : list PathSpec :=
  [ mkPath "firstname" TString true false None;
    opt "dob" TDate;
    opt "address" TString;
    opt "phone" TString;
    opt "state" TString;
    opt "zip" TString;
    opt "email" TString;
    opt "gender" TString;
    opt "userType" TString;
    opt "city" TString ].

Definition AccountSchema : list PathSpec :=
  [ mkPath "name" TString true false None;
    opt "type" TString;
    opt "user_id" TObjectId ].

Definition CategorySchema : list PathSpec :=
  [ mkPath "name" TString true true None ].

Definition CarrierSchema : list PathSpec :=
  [ mkPath "name" TString true true None ].

Definition PolicySchema : list PathSpec :=
  [ mkPath "policy_number" TString true true None;
    opt "policy_start_date" TDate;
    opt "policy_end_date" TDate;
    opt "premium_amount" TNumber;
    opt "policy_type" TString;
    opt "policy_mode" TNumber;
    opt "producer" TString;
    opt "csr" TString;
    mkPath "primary" TBoolean false false (Some (VBool false));
    opt "applicant_id" TString;
    opt "hasActive" TBoolean;
    opt "premium_amount_written" TNumber;
    opt "user_id" TObjectId;
    opt "account_id" TObjectId;
    opt "category_id" TObjectId;
    opt "carrier_id" TObjectId;
    opt "agent_id" TObjectId ].

Definition schema (k : Kind) : list PathSpec :=
  match k with
  | Agent => AgentSchema
  | User => UserSchema
  | Account => AccountSchema
  | Category => CategorySchema
  | Carrier => CarrierSchema
  | Policy => PolicySchema
  end.

(** ** The entity store

    What the worker relies on from mongoose and MongoDB: a document is its
    [_id] and the paths that are set; a collection keeps its documents in
    insertion order; [create] casts and validates against the schema before
    it inserts, and the unique index of a path refuses a second document with
    the same value; [findOne] answers the first document that matches. *)

Record Doc := mkDoc {
  _id : nat;
  fields : gmap string Value
}.

#[global] Instance Doc_eq_dec : EqDecision Doc.
Proof. solve_decision. Defined.

(** [doc.path]: a path that is not set reads like [null] in a query. *)
Definition get (d : Doc) (p : string) : Value := default VNull (fields d !! p).

Record Store := mkStore {
  agents : list Doc;
  users : list Doc;
  accounts : list Doc;
  categories : list Doc;
  carriers : list Doc;
  policies : list Doc;
  next_oid : nat
}.

Definition empty_store : Store := mkStore [] [] [] [] [] [] 0.

Definition coll (s : Store) (k : Kind) : list Doc :=
  match k with
  | Agent => agents s
  | User => users s
  | Account => accounts s
  | Category => categories s
  | Carrier => carriers s
  | Policy => policies s
  end.

(** Append [d] to the collection of [k] and use up its object id. *)
Definition push (k : Kind) (d : Doc) (s : Store) : Store :=
  let n := S (next_oid s) in
  match k with
  | Agent => mkStore (agents s ++ [d]) (users s) (accounts s) (categories s) (carriers s) (policies s) n
  | User => mkStore (agents s) (users s ++ [d]) (accounts s) (categories s) (carriers s) (policies s) n
  | Account => mkStore (agents s) (users s) (accounts s ++ [d]) (categories s) (carriers s) (policies s) n
  | Category => mkStore (agents s) (users s) (accounts s) (categories s ++ [d]) (carriers s) (policies s) n
  | Carrier => mkStore (agents s) (users s) (accounts s) (categories s) (carriers s ++ [d]) (policies s) n
  | Policy => mkStore (agents s) (users s) (accounts s) (categories s) (carriers s) (policies s ++ [d]) n
  end.

Inductive Reason := IsRequired | CastFailed.

(** The errors a run can meet. *)
Inductive Error :=
  | ValidationError (model : Kind) (errors : list (string * Reason))
  | DuplicateKey (model : Kind) (path : string) (value : Value)
  | StreamError (text : string)
  | UnlinkError (text : string)
  | WorkerStopped (code : Z).

#[global] Instance Reason_eq_dec : EqDecision Reason.
Proof. solve_decision. Defined.
#[global] Instance Error_eq_dec : EqDecision Error.
Proof. solve_decision. Defined.

(** A text of a reply: a string literal of the program, or [err.message],
    which is not spelled out: a message is told apart by the error it
    describes. *)
Inductive Text :=
  | literal (s : string)
  | message (err : Error).

#[global] Instance Text_eq_dec : EqDecision Text.
Proof. solve_decision. Defined.

(** The cast of a value to the type of its path, for the values the worker
    hands over: [null] is kept by every type, a Date path refuses an Invalid
    Date and a Number path refuses [NaN]; a value of another type than the
    path is refused here (mongoose converts some of them, the worker never
    passes one). *)
Definition cast (t : SchemaType) (v : Value) : option Value :=
  match t, v with
  | _, VNull => Some VNull
  | TString, VStr s => Some v
  | TDate, VDate (Some _) => Some v
  | TNumber, VNum (Infinity _) => Some v
  | TNumber, VNum (Finite _) => Some v
  | TBoolean, VBool _ => Some v
  | TObjectId, VId _ => Some v
  | _, _ => None
  end.

(** The [required] validator: the value is there, and a string is not
    empty. *)
Definition present (v : Value) : bool :=
  match v with
  | VUndefined | VNull => false
  | VStr s => negb (String.eqb s "")
  | _ => true
  end.

(** An object literal [{ name: value, ... }]. *)
Definition object (props : list (string * Value)) : gmap string Value :=
  list_to_map props.

(** [obj.name], [undefined] where the object has no such property. *)
Definition prop (obj : gmap string Value) (name : string) : Value :=
  default VUndefined (obj !! name).

(** What one path of a new document becomes: the value to set (if any), or
    the reason the path does not validate. *)
Definition build_path (obj : gmap string Value) (p : PathSpec) : Reason + option Value :=
  let given := prop obj (path_name p) in
  let set :=
    match given with
    | VUndefined => inr (path_default p)
    | _ => match cast (path_type p) given with
           | Some v => inr (Some v)
           | None => inl CastFailed
           end
    end in
  match set with
  | inl r => inl r
  | inr v =>
      if (required p && negb (present (default VUndefined v)))%bool
      then inl IsRequired
      else inr v
  end.

(** [new Model(obj)] and its validation, path by path in schema order. *)
Fixpoint build (obj : gmap string Value) (ps : list PathSpec)
  : list (string * Reason) * gmap string Value :=
  match ps with
  | [] => ([], ∅)
  | p :: rest =>
      let '(errs, fs) := build obj rest in
      match build_path obj p with
      | inl r => ((path_name p, r) :: errs, fs)
      | inr (Some v) => (errs, <[path_name p := v]> fs)
      | inr None => (errs, fs)
      end
  end.

(** The first unique path of the schema whose value is already taken in
    the collection. *)
Definition duplicate (ps : list PathSpec) (docs : list Doc) (fs : gmap string Value)
  : option (string * Value) :=
  let taken (p : PathSpec) : bool :=
    unique p &&
    existsb (fun d => bool_decide (get d (path_name p) = default VNull (fs !! path_name p))) docs in
  match filter (fun p => taken p = true) ps with
  | p :: _ => Some (path_name p, default VNull (fs !! path_name p))
  | [] => None
  end.

(** [Model.create(obj)] on a store. *)
Definition insert (k : Kind) (obj : list (string * Value)) (s : Store) : Error + Doc * Store :=
  match build (object obj) (schema k) with
  | ([], fs) =>
      match duplicate (schema k) (coll s k) fs with
      | Some (p, v) => inl (DuplicateKey k p v)
      | None =>
          let d := mkDoc (next_oid s) fs in
          inr (d, push k d s)
      end
  | (errs, _) => inl (ValidationError k errs)
  end.

(** A query value: [undefined] is sent as [null]. *)
Definition query_value (v : Value) : Value :=
  match v with
  | VUndefined => VNull
  | _ => v
  end.

Definition matches (cond : list (string * Value)) (d : Doc) : bool :=
  forallb (fun '(p, v) => bool_decide (get d p = query_value v)) cond.

(** [Model.findOne(cond)] on a store. *)
Definition lookup (k : Kind) (cond : list (string * Value)) (s : Store) : option Doc :=
  List.find (matches cond) (coll s k).

(** ** The statistics of a run (worker.js, lines 80 to 87) *)

Module Stats.

Record t := mk {
  agents : nat;
  users : nat;
  accounts : nat;
  categories : nat;
  carriers : nat;
  policies : nat
}.

Definition zero : t := mk 0 0 0 0 0 0.

Definition count (s : t) (k : Kind) : nat :=
  match k with
  | Agent => agents s
  | User => users s
  | Account => accounts s
  | Category => categories s
  | Carrier => carriers s
  | Policy => policies s
  end.

(** [stats.k++] *)
Definition incr (k : Kind) (s : t) : t :=
  match k with
  | Agent => mk (S (agents s)) (users s) (accounts s) (categories s) (carriers s) (policies s)
  | User => mk (agents s) (S (users s)) (accounts s) (categories s) (carriers s) (policies s)
  | Account => mk (agents s) (users s) (S (accounts s)) (categories s) (carriers s) (policies s)
  | Category => mk (agents s) (users s) (accounts s) (S (categories s)) (carriers s) (policies s)
  | Carrier => mk (agents s) (users s) (accounts s) (categories s) (S (carriers s)) (policies s)
  | Policy => mk (agents s) (users s) (accounts s) (categories s) (carriers s) (S (policies s))
  end.

#[global] Instance eq_dec : EqDecision t.
Proof. solve_decision. Defined.

End Stats.

(** ** The state a run works on *)

(** A store operation of the worker, as it reaches the store. *)
Inductive Op := Find (k : Kind) | Create (k : Kind).

#[global] Instance Op_eq_dec : EqDecision Op.
Proof. solve_decision. Defined.

(** A [create] of another writer on the same store. *)
Definition Write : Type := Kind * list (string * Value).

(** The store, the writes of other workers that are still to come, the
    operations this worker has issued so far, and its [stats] object.
    Every [await] on the store is a point where other writers get in: the
    head of [others] holds the writes that are committed just before the next
    operation of this worker is served. With [others = []] the worker has
    the store for itself. *)
Record State := mkState {
  db : Store;
  others : list (list Write);
  log : list Op;
  stats : Stats.t
}.

Definition commit (s : Store) (w : Write) : Store :=
  match insert w.1 w.2 s with
  | inr (_, s') => s'
  | inl _ => s
  end.

(** The operation [op] of this worker reaches the store. *)
Definition arrive (op : Op) (st : State) : State :=
  match others st with
  | [] => mkState (db st) [] (log st ++ [op]) (stats st)
  | ws :: rest => mkState (fold_left commit ws (db st)) rest (log st ++ [op]) (stats st)
  end.

(** How a piece of the [async] body ends: with a value, or with a thrown
    error (a rejected [await]). *)
Inductive Completion (A : Type) :=
  | Normal (a : A)
  | Throw (e : Error).
Arguments Normal {A} a.
Arguments Throw {A} e.

Definition M (A : Type) : Type := State -> Completion A * State.

#[global] Instance M_ret : MRet M := fun A a st => (Normal a, st).
#[global] Instance M_bind : MBind M := fun A B f m st =>
  match m st with
  | (Normal a, st') => f a st'
  | (Throw e, st') => (Throw e, st')
  end.

(** [await Model.findOne(cond)] *)
Definition findOne (k : Kind) (cond : list (string * Value)) : M (option Doc) :=
  fun st =>
    let st := arrive (Find k) st in
    (Normal (lookup k cond (db st)), st).

(** [await Model.create(obj)] *)
Definition create (k : Kind) (obj : list (string * Value)) : M Doc :=
  fun st =>
    let st := arrive (Create k) st in
    match insert k obj (db st) with
    | inr (d, s') => (Normal d, mkState s' (others st) (log st) (stats st))
    | inl e => (Throw e, st)
    end.

(** [stats.k++] *)
Definition count_new (k : Kind) : M unit :=
  fun st => (Normal tt, mkState (db st) (others st) (log st) (Stats.incr k (stats st))).

(** [if (!x) { x = await Model.create(obj); stats.k++; }] *)
Definition create_unless (x : option Doc) (k : Kind) (obj : list (string * Value)) : M Doc :=
  match x with
  | Some d => mret d
  | None => d ← create k obj; count_new k;; mret d
  end.

(** ** processFile (worker.js, lines 76 to 201) *)

(** A parsed CSV row: the header names that have a cell in the row, each
    with the text of the cell. *)
Abbreviation Row := (gmap string string).

(** [row.name] *)
Definition field (row : Row) (name : string) : Value := of_field (row !! name).

Section Worker.

(** [new Date(text)] needs the date parser of the engine, which reads more
    than the standard spells out: [None] for a text it cannot read. *)
Variable Date_parse : string -> option Z.

Definition new_Date (f : option string) : Value := VDate (Date_parse (ToString f)).

(** [row.name ? new Date(row.name) : null] *)
Definition date_or_null (row : Row) (name : string) : Value :=
  if truthy (field row name) then new_Date (row !! name) else VNull.

(** The six blocks of the loop body, lines 96 to 184, each a lookup and,
    if nothing is found, a create that is counted. For each block: the
    condition of its [findOne], the object of its [create], and the block. *)

(** 1. Process Agent *)
Definition agent_cond (row : Row) : list (string * Value) :=
  [ ("name", field row "agent") ].

Definition agent_fields (row : Row) : list (string * Value) :=
  [ ("name", field row "agent");
    ("agency_id", or_else (field row "agency_id") VNull) ].

Definition processAgent (row : Row) : M Doc :=
  agent ← findOne Agent (agent_cond row);
  create_unless agent Agent (agent_fields row).

(** 2. Process User *)
Definition user_cond (row : Row) : list (string * Value) :=
  [ ("firstname", field row "firstname");
    ("email", field row "email") ].

Definition user_fields (row : Row) : list (string * Value) :=
  [ ("firstname", field row "firstname");
    ("dob", date_or_null row "dob");
    ("address", field row "address");
    ("phone", field row "phone");
    ("state", field row "state");
    ("zip", field row "zip");
    ("email", field row "email");
    ("gender", field row "gender");
    ("userType", field row "userType");
    ("city", field row "city") ].

Definition processUser (row : Row) : M Doc :=
  user ← findOne User (user_cond row);
  create_unless user User (user_fields row).

(** 3. Process Account *)
Definition account_cond (row : Row) (user : Doc) : list (string * Value) :=
  [ ("name", field row "account_name");
    ("user_id", VId (_id user)) ].

Definition account_fields (row : Row) (user : Doc) : list (string * Value) :=
  [ ("name", field row "account_name");
    ("type", field row "account_type");
    ("user_id", VId (_id user)) ].

Definition processAccount (row : Row) (user : Doc) : M Doc :=
  account ← findOne Account (account_cond row user);
  create_unless account Account (account_fields row user).

(** 4. Process Category (LOB) *)
Definition category_cond (row : Row) : list (string * Value) :=
  [ ("name", field row "category_name") ].

Definition category_fields (row : Row) : list (string * Value) :=
  [ ("name", field row "category_name") ].

Definition processCategory (row : Row) : M Doc :=
  category ← findOne Category (category_cond row);
  create_unless category Category (category_fields row).

(** 5. Process Carrier *)
Definition carrier_cond (row : Row) : list (string * Value) :=
  [ ("name", field row "company_name") ].

Definition carrier_fields (row : Row) : list (string * Value) :=
  [ ("name", field row "company_name") ].

Definition processCarrier (row : Row) : M Doc :=
  carrier ← findOne Carrier (carrier_cond row);
  create_unless carrier Carrier (carrier_fields row).

(** 6. Process Policy *)
Definition policy_cond (row : Row) : list (string * Value) :=
  [ ("policy_number", field row "policy_number") ].

Definition policy_fields (row : Row) (user account category carrier agent : Doc)
  : list (string * Value) :=
  [ ("policy_number", field row "policy_number");
    ("policy_start_date", date_or_null row "policy_start_date");
    ("policy_end_date", date_or_null row "policy_end_date");
    ("premium_amount", or_else (VNum (parseFloat (row !! "premium_amount"))) (VNum zero));
    ("premium_amount_written",
      or_else (VNum (parseFloat (row !! "premium_amount_written"))) (VNum zero));
    ("policy_type", field row "policy_type");
    ("policy_mode", or_else (VNum (parseInt (row !! "policy_mode"))) VNull);
    ("producer", field row "producer");
    ("csr", field row "csr");
    ("primary", VBool (strict_eq_str (field row "primary") "true"));
    ("applicant_id", field row "Applicant ID");
    ("hasActive", VBool (strict_eq_str (field row "hasActive") "true"));
    ("user_id", VId (_id user));
    ("account_id", VId (_id account));
    ("category_id", VId (_id category));
    ("carrier_id", VId (_id carrier));
    ("agent_id", VId (_id agent)) ].

Definition processPolicy (row : Row) (user account category carrier agent : Doc) : M Doc :=
  policy ← findOne Policy (policy_cond row);
  create_unless policy Policy (policy_fields row user account category carrier agent).

(** The body of [for (const row of results)]. *)
Definition processRow (row : Row) : M unit :=
  agent ← processAgent row;
  user ← processUser row;
  account ← processAccount row user;
  category ← processCategory row;
  carrier ← processCarrier row;
  policy ← processPolicy row user account category carrier agent;
  mret tt.

(** [for (const row of results) { ... }] *)
Fixpoint processRows (results : list Row) : M unit :=
  match results with
  | [] => mret tt
  | row :: rest => processRow row;; processRows rest
  end.

End Worker.

(** *** The stream and the promise *)

(** Which stream emits ['error']: the file stream made by
    [fs.createReadStream], or the parser it is piped into. *)
Inductive Source := FileStream | Parser.

(** What [fs.createReadStream(filePath).pipe(csv())] does in a run: some
    ['data'] events and then ['end'], or some ['data'] events and then an
    ['error'] on one of the two streams. *)
Inductive Stream :=
  | Ends (data : list Row)
  | Fails (data : list Row) (on : Source) (error : Error).

Inductive Promise (A : Type) :=
  | Pending
  | Resolved (a : A)
  | Rejected (reason : Error).
Arguments Pending {A}.
Arguments Resolved {A} a.
Arguments Rejected {A} reason.

(** What [parentPort.postMessage] carries: the [stats] object, or
    [{ error: text }]. *)
Inductive Message :=
  | StatsMessage (s : Stats.t)
  | ErrorMessage (error : Text).

#[global] Instance Message_eq_dec : EqDecision Message.
Proof. solve_decision. Defined.

(** A run of the worker: the promise of [processFile], the messages posted
    to the parent in order, an ['error'] event that had no listener, whether
    the mongoose connection was closed, and the state that is left. *)
Record Run := mkRun {
  promise : Promise unit;
  posted : list Message;
  uncaught : option Error;
  connection_closed : bool;
  final : State
}.

(** [.on('data', (data) => results.push(data))] over the data events. *)
Definition collect (data : list Row) : list Row :=
  fold_left (fun results row => results ++ [row]) data [].

Section Batch.

Variable Date_parse : string -> option Z.

(** [processFile]: the listeners of lines 92 to 199 on one run of the
    stream. Only the parser has an ['error'] listener; [resolve] is never
    called; closing the connection after the statistics are posted is taken
    to succeed. *)
Definition processFile (input : Stream) (st : State) : Run :=
  match input with
  | Ends data =>
      match processRows Date_parse (collect data) st with
      | (Normal _, st') => mkRun Pending [StatsMessage (stats st')] None true st'
      | (Throw error, st') => mkRun (Rejected error) [] None false st'
      end
  | Fails data Parser error => mkRun (Rejected error) [] None false st
  | Fails data FileStream error => mkRun Pending [] (Some error) false st
  end.

(** [processFile().catch(err => parentPort.postMessage({ error: err.message }))],
    lines 204 to 208. *)
Definition worker (input : Stream) (st : State) : Run :=
  let run := processFile input st in
  match promise run with
  | Rejected err =>
      mkRun (promise run) (posted run ++ [ErrorMessage (message err)])
            (uncaught run) (connection_closed run) (final run)
  | _ => run
  end.

End Batch.

(** ** The parent: processCSV and the upload handler (index.js) *)

(** What the [Worker] object emits in the parent. *)
Inductive WorkerEvent :=
  | OnMessage (m : Message)
  | OnError (e : Error)
  | OnExit (code : Z).

(** The events of a run: its messages; then, after an uncaught error, the
    error and exit code 1; the thread ends by itself (code 0) once the
    connection is closed, and stays alive while it is open. *)
Definition events (run : Run) : list WorkerEvent :=
  map OnMessage (posted run) ++
  match uncaught run with
  | Some e => [OnError e; OnExit 1]
  | None => if connection_closed run then [OnExit 0] else []
  end.

(** One event on the promise of [processCSV] (lines 99 to 105): a settled
    promise stays as it is. *)
Definition settle (p : Promise Message) (ev : WorkerEvent) : Promise Message :=
  match p with
  | Pending =>
      match ev with
      | OnMessage m => Resolved m
      | OnError e => Rejected e
      | OnExit code => if code =? 0 then Pending else Rejected (WorkerStopped code)
      end
  | _ => p
  end.

Definition processCSV (evs : list WorkerEvent) : Promise Message :=
  fold_left settle evs Pending.

Inductive Body :=
  | ErrorBody (error : Text)
  | Processed (text : string) (stats : Message).

Record Response := mkResponse {
  status : Z;
  body : Body
}.

(** The handler of [POST /api/upload] (lines 110 to 130): [file] is
    [req.file], [result] the promise it awaits, [unlink] the error of
    [fs.unlinkSync] if it throws. No response while the promise is
    pending. *)
Definition upload (file : option string) (result : Promise Message)
    (unlink : option Error) : option Response :=
  match file with
  | None => Some (mkResponse 400 (ErrorBody (literal "No file uploaded")))
  | Some _ =>
      match result with
      | Pending => None
      | Resolved r =>
          match unlink with
          | None => Some (mkResponse 200 (Processed "File processed successfully" r))
          | Some error => Some (mkResponse 500 (ErrorBody (message error)))
          end
      | Rejected error => Some (mkResponse 500 (ErrorBody (message error)))
      end
  end.

(** ** A date parser to run the model with

    An engine that reads the date-only form [YYYY-MM-DD] of the standard,
    as midnight UTC, and nothing else. *)
Module Engine.

Definition days_from_civil (y m d : Z) : Z :=
  let y := if m <=? 2 then y - 1 else y in
  let era := y / 400 in
  let yoe := y - era * 400 in
  let mp := if m <=? 2 then m + 9 else m - 3 in
  let doy := (153 * mp + 2) / 5 + d - 1 in
  let doe := yoe * 365 + yoe / 4 - yoe / 100 + doy in
  era * 146097 + doe - 719468.

Definition leap (y : Z) : bool :=
  ((y mod 4 =? 0) && negb (y mod 100 =? 0) || (y mod 400 =? 0))%bool.

Definition days_in_month (y m : Z) : Z :=
  if m =? 2 then (if leap y then 29 else 28)
  else if (m =? 4) || (m =? 6) || (m =? 9) || (m =? 11) then 30
  else 31.

Definition Date_parse (text : string) : option Z :=
  match digits 10 text with
  | ([y1; y2; y3; y4], String "-" s1) =>
      match digits 10 s1 with
      | ([m1; m2], String "-" s2) =>
          match digits 10 s2 with
          | ([d1; d2], EmptyString) =>
              let y := number_of 10 [y1; y2; y3; y4] in
              let m := number_of 10 [m1; m2] in
              let d := number_of 10 [d1; d2] in
              if ((1 <=? m) && (m <=? 12) && (1 <=? d) && (d <=? days_in_month y m))%bool
              then Some (days_from_civil y m d * 86400000)
              else None
          | _ => None
          end
      | _ => None
      end
  | _ => None
  end.

End Engine.

(** ** Notions used in the statements *)

(** A store [s'] extends [s]: every collection of [s] is the beginning of
    the one of [s'], and no object id was given back. *)
Definition extends (s s' : Store) : Prop :=
  (forall k, coll s k `prefix_of` coll s' k) /\ (next_oid s <= next_oid s')%nat.

(** The pattern of every block: look up, and create and count if nothing
    is found. *)
Definition resolve (k : Kind) (cond obj : list (string * Value)) : M Doc :=
  x ← findOne k cond; create_unless x k obj.

(** The three ways a block can go. *)
Inductive Resolves (k : Kind) (cond obj : list (string * Value)) (st : State)
  : Completion Doc -> State -> Prop :=
  | found d :
      lookup k cond (db (arrive (Find k) st)) = Some d ->
      Resolves k cond obj st (Normal d) (arrive (Find k) st)
  | created d s' :
      let st2 := arrive (Create k) (arrive (Find k) st) in
      lookup k cond (db (arrive (Find k) st)) = None ->
      insert k obj (db st2) = inr (d, s') ->
      Resolves k cond obj st (Normal d)
        (mkState s' (others st2) (log st2) (Stats.incr k (stats st2)))
  | refused e :
      let st2 := arrive (Create k) (arrive (Find k) st) in
      lookup k cond (db (arrive (Find k) st)) = None ->
      insert k obj (db st2) = inl e ->
      Resolves k cond obj st (Throw e) st2.

(** A relation between the state before and after is kept by a
    computation. *)
Definition respects {A} (R : relation State) (m : M A) : Prop :=
  forall st c st', m st = (c, st') -> R st st'.

(** A preorder that every block keeps is kept by a row and by a batch. *)
Definition block_invariant (R : relation State) : Prop :=
  forall k cond obj st c st', Resolves k cond obj st c st' -> R st st'.

Definition grows : relation State := fun st st' => extends (db st) (db st').

Definition counted : relation State := fun st st' =>
  others st = [] ->
  others st' = [] /\
  forall k, (Stats.count (stats st') k + length (coll (db st) k) =
             Stats.count (stats st) k + length (coll (db st') k))%nat.

(** The path [name] of the model [k] has no default. *)
Definition plain (k : Kind) (name : string) : bool :=
  existsb (fun p => bool_decide (path_name p = name /\ path_default p = None)) (schema k).

(** The condition looks up by values that the object sets, on paths without
    a default. *)
Definition agrees (k : Kind) (cond obj : list (string * Value)) : Prop :=
  Forall (fun c => plain k c.1 = true /\ prop (object obj) c.1 = c.2) cond.

(** Every lookup of the row has an answer in the store [s]. *)
Definition settled (row : Row) (s : Store) : Prop :=
  exists agent user account category carrier policy,
    lookup Agent (agent_cond row) s = Some agent /\
    lookup User (user_cond row) s = Some user /\
    lookup Account (account_cond row user) s = Some account /\
    lookup Category (category_cond row) s = Some category /\
    lookup Carrier (carrier_cond row) s = Some carrier /\
    lookup Policy (policy_cond row) s = Some policy.

(** The order of the blocks. *)
Definition order : list Kind := [Agent; User; Account; Category; Carrier; Policy].


(** The operations of the blocks of [ks], in this order: a lookup, and a
    create for the kinds that [made] marks. *)
Definition issued (made : Kind -> bool) (ks : list Kind) : list Op :=
  flat_map (fun k => Find k :: (if made k then [Create k] else [])) ks.

(** Object ids are used once: in every collection no two documents share
    their [_id], and every [_id] in use is below the next one to hand out. *)
Definition wf (s : Store) : Prop :=
  forall k, NoDup (map _id (coll s k)) /\
            forall d, d ∈ coll s k -> (_id d < next_oid s)%nat.

Definition well_kept : relation State := fun st st' => wf (db st) -> wf (db st').


(** The model an error of the store is about. *)
Definition error_model (e : Error) : option Kind :=
  match e with
  | ValidationError k _ | DuplicateKey k _ _ => Some k
  | _ => None
  end.

(** The condition of the lookup is the value the object gives to the
    unique path of the model, if the model has one. *)
Definition keyed (k : Kind) (cond obj : list (string * Value)) : Prop :=
  forall p, p ∈ schema k -> unique p = true ->
    path_default p = None /\ cond = [(path_name p, prop (object obj) (path_name p))].

(** The policy number of a document, and the one a row looks up. *)
Definition number (d : Doc) : Value := get d "policy_number".

Definition row_number (row : Row) : Value := query_value (field row "policy_number").

(** ** Rows and states to run the model on *)

Module Sample.

(** A complete row. *)
Definition row : Row :=
  list_to_map
    [ ("agent", "Alex J Lopez"); ("agency_id", "AG-7"); ("firstname", "Ann");
      ("dob", "1970-01-02"); ("address", "12 Elm St"); ("phone", "5550100");
      ("state", "NY"); ("zip", "10001"); ("email", "ann@example.org");
      ("gender", "F"); ("userType", "Active Client"); ("city", "Albany");
      ("account_name", "Ann and Co"); ("account_type", "Commercial");
      ("category_name", "Auto"); ("company_name", "Acme Mutual");
      ("policy_number", "P-100"); ("policy_start_date", "2018-11-02");
      ("policy_end_date", "2019-11-02"); ("premium_amount", "1180.83");
      ("premium_amount_written", ""); ("policy_type", "Single");
      ("policy_mode", "12"); ("producer", "Brandie"); ("csr", "Tami");
      ("primary", "TRUE"); ("Applicant ID", "X-1"); ("hasActive", "true") ].

(** The same policy number for another person, agent, account, line and
    company. *)
Definition same_number : Row :=
  list_to_map
    [ ("agent", "Bo"); ("firstname", "Cy"); ("email", "cy@example.org");
      ("account_name", "Cy Ltd"); ("category_name", "Home");
      ("company_name", "Zenith"); ("policy_number", "P-100");
      ("premium_amount", "77") ].

(** Another policy of the person of [row], in another line of business. *)
Definition second_policy : Row :=
  <["policy_number" := "P-200"]> (<["category_name" := "Home"]> row).


(** [row] with the policy mode [0]. *)
Definition mode_zero : Row := <["policy_mode" := "0"]> row.

(** [row] without the name of the agent. *)
Definition no_agent : Row := delete "agent" row.

(** An empty store and a worker alone. *)
Definition fresh : State := mkState empty_store [] [] Stats.zero.

(** An empty store, and another writer that creates the category [Home]
    while this worker is between its lookup of the category of its second
    row (its 16th operation) and its create (the 17th). *)
Definition racing : State :=
  mkState empty_store
    (replicate 16 [] ++ [[(Category, [("name", VStr "Home")])]])
    [] Stats.zero.

(** A user, an account, a category, a carrier and an agent to hand to the
    Policy block. *)
Definition user : Doc := mkDoc 1 ∅.
Definition account : Doc := mkDoc 2 ∅.
Definition category : Doc := mkDoc 3 ∅.
Definition carrier : Doc := mkDoc 4 ∅.
Definition agent : Doc := mkDoc 0 ∅.

(** The document of a completion, an empty one if there is none. *)
Definition doc_of (c : Completion Doc) : Doc :=
  match c with
  | Normal d => d
  | Throw _ => mkDoc 0 ∅
  end.

(** A batch of two policies of one person. *)
Definition batch : list Row := [row; second_policy].

(** The model run with the date parser of [Engine]. *)
Definition run_rows := processRows Engine.Date_parse.
Definition run_row := processRow Engine.Date_parse.
Definition run_policy (r : Row) :=
  processPolicy Engine.Date_parse r user account category carrier agent fresh.
Definition run_worker := worker Engine.Date_parse.

End Sample.


(** ** A decimal number written out

    The reading of "numeric" that the specification suggests: the text as a
    whole is a decimal number, that is an optional sign, digits, and
    possibly a dot followed by digits. Its value is the number of the digits
    without the dot, over the power of ten of the digits after the dot. *)

Fixpoint digits_only (s : string) : option (list nat) :=
  match s with
  | EmptyString => Some []
  | String c rest =>
      match digit_of 10 c, digits_only rest with
      | Some d, Some ds => Some (d :: ds)
      | _, _ => None
      end
  end.

(** The text up to the first dot, and the text after it if there is one. *)
Fixpoint at_dot (s : string) : string * option string :=
  match s with
  | EmptyString => (EmptyString, None)
  | String c rest =>
      if Ascii.eqb c "." then (EmptyString, Some rest)
      else let '(int, frac) := at_dot rest in (String c int, frac)
  end.

Definition decimal (text : string) : option Q :=
  let '(negative, s) := sign text in
  let '(int, frac) := at_dot s in
  match digits_only int, frac with
  | Some (i :: int), None =>
      Some (inject_Z (signed negative (number_of 10 (i :: int))))
  | Some (i :: int), Some frac =>
      match digits_only frac with
      | Some (f :: frac) =>
          Some (signed negative (number_of 10 ((i :: int) ++ f :: frac))
                # Pos.pow 10 (Pos.of_nat (length (f :: frac))))
      | _ => None
      end
  | _, _ => None
  end.


(** ** Further notions about the store and a run *)

(** The paths a block looks up by. *)
Definition key_paths (k : Kind) : list string :=
  match k with
  | Agent => ["name"]
  | User => ["firstname"; "email"]
  | Account => ["name"; "user_id"]
  | Category => ["name"]
  | Carrier => ["name"]
  | Policy => ["policy_number"]
  end.

(** What a document holds at these paths. *)
Definition key_of (k : Kind) (d : Doc) : list Value := map (get d) (key_paths k).

(** No two documents of a collection agree on the paths their block looks
    up by. *)
Definition distinct (s : Store) : Prop :=
  forall k, NoDup (map (key_of k) (coll s k)).

(** A block of the program: its condition is on the paths of the key, with
    the values its object sets. *)
Definition proper (k : Kind) (cond obj : list (string * Value)) : Prop :=
  agrees k cond obj /\ map fst cond = key_paths k.

(** No two documents of a collection hold the same value at a unique path
    of their schema. *)
Definition unique_kept (s : Store) : Prop :=
  forall k p, p ∈ schema k -> unique p = true ->
    NoDup (map (fun d => get d (path_name p)) (coll s k)).

(** Every document holds a value at the required paths of its schema. *)
Definition valid (s : Store) : Prop :=
  forall k d p, d ∈ coll s k -> p ∈ schema k -> required p = true ->
    present (get d (path_name p)) = true.

(** How many creates of the model [k] are among the operations. *)
Definition creates (k : Kind) (ops : list Op) : nat :=
  length (filter (fun o => o = Create k) ops).

(** The references of a policy: the path and the model it points to. *)
Definition policy_refs : list (string * Kind) :=
  [ ("user_id", User); ("account_id", Account); ("category_id", Category);
    ("carrier_id", Carrier); ("agent_id", Agent) ].

(** The document [d] holds at [path] the [_id] of a document of the model
    [k] that is in the store. *)
Definition resolves_in (s : Store) (d : Doc) (path : string) (k : Kind) : Prop :=
  exists t, t ∈ coll s k /\ get d path = VId (_id t).

(** Every reference of every policy, and the user of every account, is in
    the store. *)
Definition linked (s : Store) : Prop :=
  (forall p, p ∈ policies s ->
     forall path k, (path, k) ∈ policy_refs -> resolves_in s p path k) /\
  (forall a, a ∈ accounts s -> resolves_in s a "user_id" User).

(** Two states that differ at most in the log and the statistics. *)
Definition same_store (st1 st2 : State) : Prop :=
  db st1 = db st2 /\ others st1 = others st2.

(** The statistics moved by the same amounts from [a] to [a'] as from [b]
    to [b']. *)
Definition same_gain (a a' b b' : Stats.t) : Prop :=
  forall k, (Stats.count a' k + Stats.count b k = Stats.count b' k + Stats.count a k)%nat.

(** A computation does the same to the store, and counts the same, whatever
    the log and the statistics it starts from. *)
Definition framed {A} (m : M A) : Prop :=
  forall st1 st2, same_store st1 st2 ->
    (m st1).1 = (m st2).1 /\
    same_store (m st1).2 (m st2).2 /\
    same_gain (stats st1) (stats (m st1).2) (stats st2) (stats (m st2).2).

(** The columns a row cannot go through without. *)
Definition required_cells : list string :=
  ["agent"; "firstname"; "account_name"; "category_name"; "company_name"; "policy_number"].

(** A property of the store that a computation does not lose. *)
Definition keeps (P : Store -> Prop) : relation State :=
  fun st st' => P (db st) -> P (db st').

(** The counters have moved by at most the number of creates issued. *)
Definition tallied : relation State := fun st st' =>
  forall k, (Stats.count (stats st') k + creates k (log st) <=
             Stats.count (stats st) k + creates k (log st'))%nat.

(** A relation that every block of the program keeps. *)
Definition program_invariant (R : relation State) : Prop :=
  forall k cond obj st c st',
    proper k cond obj -> Resolves k cond obj st c st' -> R st st'.

(** Alone, the keys stay distinct. *)
Definition distinct_alone : relation State := fun st st' =>
  others st = [] -> distinct (db st) -> others st' = [] /\ distinct (db st').

(** The object a block creates from, by the model. *)
Definition row_fields (Date_parse : string -> option Z) (k : Kind) (row : Row)
    (user account category carrier agent : Doc) : list (string * Value) :=
  match k with
  | Agent => agent_fields row
  | User => user_fields Date_parse row
  | Account => account_fields row user
  | Category => category_fields row
  | Carrier => carrier_fields row
  | Policy => policy_fields Date_parse row user account category carrier agent
  end.

(** The paths that take the text of a column as it is: the model, the path
    and the column. *)
Definition text_columns : list (Kind * string * string) :=
  [ (Agent, "name", "agent");
    (User, "firstname", "firstname"); (User, "address", "address");
    (User, "phone", "phone"); (User, "state", "state"); (User, "zip", "zip");
    (User, "email", "email"); (User, "gender", "gender");
    (User, "userType", "userType"); (User, "city", "city");
    (Account, "name", "account_name"); (Account, "type", "account_type");
    (Category, "name", "category_name");
    (Carrier, "name", "company_name");
    (Policy, "policy_number", "policy_number"); (Policy, "policy_type", "policy_type");
    (Policy, "producer", "producer"); (Policy, "csr", "csr");
    (Policy, "applicant_id", "Applicant ID") ].

(** The status of the reply to an upload, by what happened. *)
Definition upload_status (file : option string) (input : Stream) (unlink : option Error) : Z :=
  match file with
  | None => 400
  | Some _ =>
      match input, unlink with
      | Fails _ FileStream _, _ => 500
      | _, Some _ => 500
      | _, None => 200
      end
  end.

(** ** The scheduled posts (index.js, lines 212 to 233 and 292 to 327) *)

Module Scheduler.

(** A document of the model ScheduledPost. *)
Record Post := mkPost {
  _id : nat;
  message : string;
  scheduledDate : Z;
  status : string;
  createdAt : Z
}.

(** The stored posts, and what the store does with the writes to come:
    [true] for a save that is written, [false] for a save that throws; a
    save beyond the list is written. *)
Record World := mkWorld {
  posts : list Post;
  saves : list bool
}.

(** [post.status = s] on the in-memory document. *)
Definition with_status (s : string) (p : Post) : Post :=
  mkPost (_id p) (message p) (scheduledDate p) s (createdAt p).

(** What a save that is written does to the collection: the document with
    the [_id] of the post gets its modified path, the status. *)
Definition set_status (id : nat) (s : string) (ps : list Post) : list Post :=
  map (fun p => if Nat.eqb (_id p) id then with_status s p else p) ps.

(** [post.status = s; await post.save()]: whether the save is written, and
    the world after it. *)
Definition save (post : Post) (s : string) (w : World) : bool * World :=
  match saves w with
  | false :: rest => (false, mkWorld (posts w) rest)
  | true :: rest => (true, mkWorld (set_status (_id post) s (posts w)) rest)
  | [] => (true, mkWorld (set_status (_id post) s (posts w)) [])
  end.

(** The condition of the query of line 297:
    [{ scheduledDate: { $lte: now }, status: 'pending' }]. *)
Definition due (now : Z) (p : Post) : bool :=
  (scheduledDate p <=? now) && String.eqb (status p) "pending".

(** [for (const post of pendingPosts)], lines 304 to 320: mark the post
    delivered; if that save throws, mark it failed; if that save throws too,
    the error leaves the loop (it is caught and logged by the outer [catch])
    and the posts that follow are not looked at. *)
Fixpoint deliver (pendingPosts : list Post) (w : World) : World :=
  match pendingPosts with
  | [] => w
  | post :: rest =>
      let (written, w1) := save post "delivered" w in
      if written then deliver rest w1
      else
        let (written, w2) := save post "failed" w1 in
        if written then deliver rest w2 else w2
  end.

(** [deliverScheduledPosts] at the time [now]; [found] tells whether the
    query goes through ([false]: it throws, which the outer [catch]
    logs). *)
Definition deliverScheduledPosts (now : Z) (found : bool) (w : World) : World :=
  if found then deliver (List.filter (due now) (posts w)) w else w.

(** The post has the status a run leaves behind. *)
Definition settled_status (p : Post) : Prop :=
  status p = "delivered" \/ status p = "failed".

(** What a run may make of a stored post: nothing, or, for a post that was
    due, the same post delivered or failed. *)
Definition outcome (now : Z) (p p' : Post) : Prop :=
  p' = p \/
  (due now p = true /\ (p' = with_status "delivered" p \/ p' = with_status "failed" p)).

(** The store never throws on two saves in a row. *)
Fixpoint calm (saves : list bool) : bool :=
  match saves with
  | false :: (false :: _) => false
  | _ :: rest => calm rest
  | [] => true
  end.

End Scheduler.

(** ** More to run the model on *)

Module Cases.

(** The agent that is created from [Sample.row] in an empty store. *)
Definition agent_made : Error + Doc * Store :=
  insert Agent
    (row_fields Engine.Date_parse Agent Sample.row Sample.user Sample.account
       Sample.category Sample.carrier Sample.agent)
    empty_store.

Definition agent_doc : Doc :=
  match agent_made with
  | inr (d, _) => d
  | inl _ => Sample.agent
  end.

Definition agent_store : Store :=
  match agent_made with
  | inr (_, s) => s
  | inl _ => empty_store
  end.

(** [Sample.row] with a premium that only starts like a number, with one
    that has a thousands separator, with one beyond the doubles and with
    one below them. *)
Definition trailing_text : Row := <["premium_amount" := "12abc"]> Sample.row.
Definition grouped : Row := <["premium_amount" := "1,180.83"]> Sample.row.
Definition huge : Row := <["premium_amount" := "1e400"]> Sample.row.
Definition tiny : Row := <["premium_amount" := "1e-400"]> Sample.row.

(** The policy that a row on its own leaves in an empty store, and what it
    holds for the premium. *)
Definition policy_of (r : Row) : option Doc :=
  last (policies (db (Sample.run_row r Sample.fresh).2)).

Definition premium_of (r : Row) : option Value :=
  d ← policy_of r; fields d !! "premium_amount".

(** [Sample.row] with a start date that is no date. *)
Definition bad_start : Row := <["policy_start_date" := "02/11/2018 x"]> Sample.row.

(** Four posts: one due and pending, one pending for later, one delivered
    and one failed, both long due. *)
Definition posts : list Scheduler.Post :=
  [ Scheduler.mkPost 1 "renewal reminder" 1000 "pending" 10;
    Scheduler.mkPost 2 "birthday greeting" 5000 "pending" 20;
    Scheduler.mkPost 3 "welcome" 500 "delivered" 30;
    Scheduler.mkPost 4 "survey" 600 "failed" 40 ].

(** A store that never fails, and one whose first save throws. *)
Definition steady : Scheduler.World := Scheduler.mkWorld posts [].
Definition shaky : Scheduler.World := Scheduler.mkWorld posts [false; true].

End Cases.

(** * Properties *)

(** ** Numbers read from text *)

Lemma digits_nil radix s :
  (digits radix s).1 = [] <->
  match s with String c _ => digit_of radix c = None | EmptyString => True end.
Proof.
  destruct s as [|c rest]; simpl; [done|].
  destruct (digit_of radix c); [|done].
  destruct (digits radix rest). simpl. split; discriminate.
Qed.

Lemma after_dot (s : string) :
  match s with
  | String "." rest => digits 10 rest
  | _ => ([], s)
  end =
  match s with
  | String c rest => if Ascii.eqb c "." then digits 10 rest else ([], s)
  | EmptyString => ([], s)
  end.
Proof.
  destruct s as [|c rest]; [done|].
  destruct c as [[] [] [] [] [] [] [] []]; reflexivity.
Qed.

Lemma unsigned_literal_None s :
  unsigned_literal s = None <->
  (starts_with "Infinity" s ||
   match s with
   | String c rest =>
       is_digit c ||
       (Ascii.eqb c "." &&
        match rest with String d _ => is_digit d | EmptyString => false end)
   | EmptyString => false
   end)%bool = false.
Proof.
  unfold unsigned_literal. destruct (starts_with "Infinity" s); simpl; [done|].
  destruct (digits 10 s) as [int s1] eqn:Hd. rewrite after_dot.
  destruct s as [|c rest]; simpl in Hd.
  { inversion Hd; subst. done. }
  unfold is_digit. destruct (digit_of 10 c) as [d|] eqn:Hc; simpl.
  - destruct (digits 10 rest) as [ds tl]. inversion Hd; subst.
    destruct (match s1 with String c0 rest0 => _ | EmptyString => _ end). done.
  - inversion Hd; subst. destruct (Ascii.eqb c ".") eqn:Hdot; simpl; [|done].
    pose proof (digits_nil 10 rest) as Hn.
    destruct (digits 10 rest) as [frac s2]. simpl in *.
    destruct rest as [|d rest']; simpl in *.
    + destruct frac; [done|]. destruct Hn as [_ Hn]. by specialize (Hn I).
    + unfold is_digit. destruct (digit_of 10 d); destruct frac; try done.
      * destruct Hn as [Hn _]. by specialize (Hn eq_refl).
      * destruct Hn as [_ Hn]. by specialize (Hn eq_refl).
Qed.

(** *** Rounding to a double *)

Lemma to_double_not_NaN x : to_double x <> NaN.
Proof.
  unfold to_double. cbv zeta. destruct (Z.abs (Qnum (Qred x)) =? 0); [discriminate|].
  destruct (1024 <=? _); discriminate.
Qed.

(** The double of a rational does not depend on how the rational is
    written. *)
Lemma to_double_proper x y : (x == y)%Q -> to_double x = to_double y.
Proof. intros H. unfold to_double. by rewrite (Qred_complete _ _ H). Qed.

Lemma Qred_zero x q : Qred x = q -> is_zero q = true -> q = 0%Q.
Proof.
  intros <- Hz. unfold is_zero in Hz. apply Z.eqb_eq in Hz.
  assert (Hx : (x == 0)%Q).
  { rewrite <- (Qred_correct x). unfold Qeq. rewrite Hz. simpl. lia. }
  by rewrite (Qred_complete _ _ Hx).
Qed.

(** A finite double is in lowest terms, so that the zero among them is
    [0]. *)
Lemma to_double_zero x q : to_double x = Finite q -> is_zero q = true -> q = 0%Q.
Proof.
  unfold to_double. cbv zeta. destruct (Z.abs (Qnum (Qred x)) =? 0); [by intros [= <-]|].
  destruct (1024 <=? _); [discriminate|].
  intros [= H] Hz. exact (Qred_zero _ _ H Hz).
Qed.

Lemma round_half_even_ge n d : 0 <= n -> 0 < d -> n / d <= round_half_even n d.
Proof.
  intros Hn Hd. unfold round_half_even.
  destruct (2 * (n mod d) ?= d); [destruct (Z.even _)|..]; lia.
Qed.

(** An integer other than 0 is read as a number other than 0: nothing
    underflows. *)
Lemma to_double_integer z :
  truthy (VNum (to_double (inject_Z z))) = negb (z =? 0).
Proof.
  unfold to_double.
  rewrite (Qcanon.Qred_identity (inject_Z z)) by apply Z.gcd_1_r.
  change (Qnum (inject_Z z)) with z. change (Qden (inject_Z z)) with 1%positive.
  destruct (Z.eqb_spec (Z.abs z) 0) as [Hz|Hz].
  { assert (z = 0) as -> by lia. reflexivity. }
  destruct (Z.eqb_spec z 0) as [Hz0|_]; [lia|]. cbv zeta.
  change (Z.log2 1) with 0. rewrite Z.sub_0_r.
  set (n := Z.abs z) in *. assert (Hn : 0 < n) by lia.
  pose proof (Z.log2_nonneg n) as Hl. pose proof (Z.log2_spec n Hn) as [Hlo Hhi].
  destruct (Z.leb_spec 0 (Z.log2 n)) as [_|]; [|lia].
  destruct (Z.ltb_spec n (1 * 2 ^ Z.log2 n)) as [|_]; [lia|].
  assert (Hmax : Z.max (Z.log2 n - 52) (-1074) = Z.log2 n - 52) by lia. rewrite Hmax.
  set (ulp := Z.log2 n - 52) in *.
  set (m := if 0 <=? ulp then _ else _).
  assert (Hm : 0 < m).
  { subst m. destruct (Z.leb_spec 0 ulp) as [Hu|Hu].
    - eapply Z.lt_le_trans; [|apply round_half_even_ge; lia].
      apply Z.div_str_pos. split; [lia|].
      eapply Z.le_trans; [|exact Hlo]. rewrite Z.mul_1_l.
      apply Z.pow_le_mono_r; lia.
    - eapply Z.lt_le_trans; [|apply round_half_even_ge; lia].
      rewrite Z.div_1_r. apply Z.mul_pos_pos; [lia|]. apply Z.pow_pos_nonneg; lia. }
  destruct (1024 <=? Z.log2 m + ulp); [reflexivity|].
  cbn [truthy]. unfold is_zero.
  set (y := (inject_Z (if z <? 0 then - m else m) * Qpower 2 ulp)%Q).
  destruct (Z.eqb_spec (Qnum (Qred y)) 0) as [E|E]; [|reflexivity].
  exfalso.
  assert (Hq : (Qred y == 0)%Q).
  { unfold Qeq. rewrite E. simpl. lia. }
  rewrite Qred_correct in Hq. subst y. apply Qmult_integral in Hq as [Hq|Hq].
  - unfold Qeq, inject_Z in Hq. simpl in Hq. destruct (z <? 0); lia.
  - assert (Hp : (0 < Qpower 2 ulp)%Q) by (apply Qpower_0_lt; reflexivity).
    rewrite Hq in Hp. by apply Qlt_irrefl in Hp.
Qed.

(** [parseFloat] answers [NaN] exactly for the texts that do not start
    like a number. *)
Lemma parseFloat_NaN f : parseFloat f = NaN <-> numeric (ToString f) = false.
Proof.
  unfold parseFloat, numeric. destruct (sign (trim_start (ToString f))) as [negative s].
  rewrite <- unsigned_literal_None.
  destruct (unsigned_literal s) as [[|m e]|]; split; try congruence.
  intros H. by apply to_double_not_NaN in H.
Qed.

(** The zero that [parseFloat] answers is [0]. *)
Lemma parseFloat_zero f q : parseFloat f = Finite q -> is_zero q = true -> q = 0%Q.
Proof.
  unfold parseFloat. destruct (sign _) as [negative s].
  destruct (unsigned_literal s) as [[|m e]|]; try discriminate.
  apply to_double_zero.
Qed.

(** *** Decimal numbers written out *)

Lemma digit_not_white c d : digit_of 10 c = Some d -> is_white c = false.
Proof. destruct c as [[] [] [] [] [] [] [] []]; vm_compute; congruence. Qed.

Lemma digit_not_sign c d :
  digit_of 10 c = Some d -> c <> "-"%char /\ c <> "+"%char /\ c <> "."%char /\ c <> "I"%char.
Proof. destruct c as [[] [] [] [] [] [] [] []]; vm_compute; intros; repeat split; congruence. Qed.

Lemma digits_whole s ds : digits_only s = Some ds -> digits 10 s = (ds, "").
Proof.
  revert ds. induction s as [|c s IH]; intros ds; simpl.
  - by intros [= <-].
  - destruct (digit_of 10 c) as [d|]; [|discriminate].
    destruct (digits_only s) as [ds'|]; [|discriminate].
    intros [= <-]. by rewrite (IH ds').
Qed.

Lemma digits_to_dot s int frac ds :
  at_dot s = (int, Some frac) -> digits_only int = Some ds ->
  digits 10 s = (ds, String "." frac).
Proof.
  revert int ds. induction s as [|c s IH]; intros int ds; simpl; [discriminate|].
  destruct (Ascii.eqb_spec c ".") as [->|Hc].
  - intros [= <- <-]. simpl. by intros [= <-].
  - destruct (at_dot s) as [int' frac'] eqn:Hs. intros [= <- ->]. simpl.
    destruct (digit_of 10 c) as [d|]; [|discriminate].
    destruct (digits_only int') as [ds'|] eqn:Hd; [|discriminate].
    intros [= <-]. by rewrite (IH int' ds').
Qed.

Lemma at_dot_none s int : at_dot s = (int, None) -> int = s.
Proof.
  revert int. induction s as [|c s IH]; intros int; simpl; [by intros [= <-]|].
  destruct (Ascii.eqb c "."); [discriminate|].
  destruct (at_dot s) as [int' frac']. intros [= <- ->]. by rewrite (IH int').
Qed.

Lemma decimal_not_white c rest x : decimal (String c rest) = Some x -> is_white c = false.
Proof.
  intros H. destruct (is_white c) eqn:Hw; [|done]. exfalso.
  destruct c as [[] [] [] [] [] [] [] []]; vm_compute in Hw; try discriminate Hw;
    unfold decimal in H; simpl in H; destruct (at_dot rest); simpl in H; discriminate.
Qed.

Lemma trim_start_decimal text x : decimal text = Some x -> trim_start text = text.
Proof.
  destruct text as [|c rest]; [done|]. intros H%decimal_not_white. simpl. by rewrite H.
Qed.

Lemma digit_then_not_Infinity c s d :
  digit_of 10 c = Some d -> starts_with "Infinity" (String c s) = false.
Proof.
  intros (_ & _ & _ & HI)%digit_not_sign. unfold starts_with.
  change (String.prefix "Infinity" (String c s))
    with (if ascii_dec "I" c then String.prefix "nfinity" s else false).
  destruct (ascii_dec "I" c) as [E|E]; [|reflexivity].
  exfalso. apply HI. by rewrite <- E.
Qed.

Lemma digits_only_head s d ds :
  digits_only s = Some (d :: ds) ->
  exists c rest, s = String c rest /\ digit_of 10 c = Some d.
Proof.
  destruct s as [|c s]; [discriminate|]. simpl.
  destruct (digit_of 10 c) as [d'|] eqn:Hc; [|discriminate].
  destruct (digits_only s); [|discriminate]. intros [= -> _]. eauto.
Qed.

Lemma tenth_power z (p : positive) :
  (inject_Z z * power10 (Z.neg p) == z # Pos.pow 10 p)%Q.
Proof.
  unfold power10. change (Z.neg p) with (- Z.pos p).
  assert (H1 : (1 ^ p = 1)%positive).
  { apply Pos2Z.inj. rewrite Pos2Z.inj_pow. apply Z.pow_1_l. lia. }
  rewrite Qpower_opp, Qpower_decomp_pos, H1, <- Pos2Z.inj_pow.
  unfold Qeq, Qinv, inject_Z. simpl. lia.
Qed.

(** A text that is a decimal number as a whole is read by [parseFloat] as
    the double of this number. *)
Lemma parseFloat_decimal text x :
  decimal text = Some x -> parseFloat (Some text) = to_double x.
Proof.
  intros H. unfold parseFloat. simpl ToString. rewrite (trim_start_decimal _ _ H).
  unfold decimal in H. destruct (sign text) as [negative s].
  destruct (at_dot s) as [int frac] eqn:Hat.
  destruct (digits_only int) as [[|i ints]|] eqn:Hint; try discriminate.
  destruct frac as [frac|].
  - destruct (digits_only frac) as [[|f fs]|] eqn:Hfrac; try discriminate.
    injection H as <-.
    assert (Hs : starts_with "Infinity" s = false).
    { destruct s as [|c s]; [discriminate|]. simpl in Hat.
      destruct (Ascii.eqb c "."); [injection Hat as <- _; discriminate|].
      destruct (at_dot s) as [int' frac']. injection Hat as <- _.
      apply digits_only_head in Hint as (c' & rest & [= <- <-] & Hc).
      by eapply digit_then_not_Infinity. }
    unfold unsigned_literal. rewrite Hs, (digits_to_dot _ _ _ _ Hat Hint).
    rewrite (digits_whole _ _ Hfrac). cbn [exponent_part].
    apply to_double_proper. cbn [length]. rewrite <- Pos.of_nat_succ.
    exact (tenth_power _ (Pos.of_succ_nat (length fs))).
  - injection H as <-. apply at_dot_none in Hat as ->.
    pose proof (digits_only_head _ _ _ Hint) as (c & rest & -> & Hc).
    unfold unsigned_literal.
    rewrite (digit_then_not_Infinity _ _ _ Hc), (digits_whole _ _ Hint).
    cbn [exponent_part length]. rewrite app_nil_r.
    apply to_double_proper. unfold power10. simpl. apply Qmult_1_r.
Qed.

(** ** Casting and validation *)

Lemma cast_same t v v' : cast t v = Some v' -> v' = v.
Proof. destruct t, v as [| | | [] | | [] |]; simpl; congruence. Qed.

Lemma cast_defined t v v' : cast t v = Some v' -> v <> VUndefined.
Proof. destruct t, v; simpl; congruence. Qed.

(** A path that validates is set to the value given for it, or, when none
    is given, to its default. *)
Lemma build_path_value obj p ov :
  build_path obj p = inr ov ->
  ov = match prop obj (path_name p) with
       | VUndefined => path_default p
       | v => Some v
       end.
Proof.
  unfold build_path.
  destruct (prop obj (path_name p)) eqn:Hg;
    try (destruct (cast (path_type p) _) as [v'|] eqn:Hc; [|discriminate];
         apply cast_same in Hc; subst v');
    destruct (required p && _)%bool; congruence.
Qed.

Lemma build_lookup obj ps fs p :
  build obj ps = ([], fs) ->
  NoDup (map path_name ps) ->
  p ∈ ps ->
  exists ov, build_path obj p = inr ov /\ fs !! path_name p = ov.
Proof.
  revert fs. induction ps as [|q ps IH]; intros fs Hb Hnd Hin.
  - inversion Hin.
  - simpl in Hb. destruct (build obj ps) as [errs fs'] eqn:Hrest.
    inversion Hnd as [|? ? Hq Hnd']; subst.
    assert (Hfresh : fs' !! path_name q = None).
    { clear -Hrest Hq. revert errs fs' Hrest. induction ps as [|r ps IH]; intros errs fs' Hrest.
      - simpl in Hrest. inversion Hrest. apply lookup_empty.
      - simpl in Hrest. destruct (build obj ps) as [e1 f1] eqn:H1.
        assert (path_name q <> path_name r) by (intros E; apply Hq; rewrite E; left).
        assert (f1 !! path_name q = None) by (eapply IH; [|reflexivity]; intros ?; apply Hq; by right).
        destruct (build_path obj r) as [?|[v|]]; inversion Hrest; subst; auto.
        by rewrite lookup_insert_ne. }
    destruct (build_path obj q) as [r|[v|]] eqn:Hbq; inversion Hb; subst; clear Hb.
    + apply elem_of_cons in Hin as [->|Hin].
      * exists (Some v). split; [done|]. apply lookup_insert_eq.
      * destruct (IH fs' eq_refl Hnd' Hin) as (ov & H1 & H2).
        exists ov. split; [done|].
        rewrite lookup_insert_ne; [done|].
        intros E. apply Hq. rewrite E. apply list_elem_of_In, in_map, list_elem_of_In, Hin.
    + apply elem_of_cons in Hin as [->|Hin].
      * exists None. split; done.
      * apply (IH fs eq_refl Hnd' Hin).
Qed.

Lemma schema_NoDup k : NoDup (map path_name (schema k)).
Proof. destruct k; apply (bool_decide_unpack _); vm_compute; exact I. Qed.

(** ** The store *)

Lemma coll_push k d s k' :
  coll (push k d s) k' = if decide (k' = k) then coll s k ++ [d] else coll s k'.
Proof. destruct k, k'; reflexivity. Qed.

Lemma next_oid_push k d s : next_oid (push k d s) = S (next_oid s).
Proof. destruct k; reflexivity. Qed.

Lemma insert_inv k obj s d s' :
  insert k obj s = inr (d, s') ->
  exists fs,
    build (object obj) (schema k) = ([], fs) /\
    duplicate (schema k) (coll s k) fs = None /\
    d = mkDoc (next_oid s) fs /\
    s' = push k d s.
Proof.
  unfold insert. destruct (build _ _) as [[|err errs] fs] eqn:Hb; [|discriminate].
  destruct (duplicate _ _ _) as [[p v]|] eqn:Hd; [discriminate|].
  intros H. inversion H; subst. by exists fs.
Qed.

(** What a created document holds at a path of its schema. *)
Lemma insert_get k obj s d s' p :
  insert k obj s = inr (d, s') ->
  p ∈ schema k ->
  get d (path_name p) =
    match prop (object obj) (path_name p) with
    | VUndefined => default VNull (path_default p)
    | v => v
    end.
Proof.
  intros (fs & Hb & _ & -> & _)%insert_inv Hin.
  destruct (build_lookup _ _ _ _ Hb (schema_NoDup k) Hin) as (ov & Hp & Hfs).
  apply build_path_value in Hp. unfold get. simpl. rewrite Hfs, Hp.
  by destruct (prop _ _).
Qed.

#[global] Instance extends_preorder : PreOrder extends.
Proof.
  split.
  - intros s. split; [done | lia].
  - intros s1 s2 s3 [H1 H1'] [H2 H2']. split; [|lia].
    intros k. etrans; [apply H1 | apply H2].
Qed.

Lemma extends_push k d s : extends s (push k d s).
Proof.
  split; [|rewrite next_oid_push; lia].
  intros k'. rewrite coll_push. case_decide; subst; [by apply prefix_app_r | done].
Qed.

Lemma extends_insert k obj s d s' : insert k obj s = inr (d, s') -> extends s s'.
Proof. intros (fs & _ & _ & _ & ->)%insert_inv. apply extends_push. Qed.

Lemma extends_commit s w : extends s (commit s w).
Proof.
  unfold commit. destruct (insert _ _ _) as [e|[d s']] eqn:H; [done|].
  by eapply extends_insert.
Qed.

Lemma extends_commits ws s : extends s (fold_left commit ws s).
Proof.
  revert s. induction ws as [|w ws IH]; intros s; simpl; [done|].
  etrans; [apply extends_commit | apply IH].
Qed.

Lemma find_app_Some {A} (f : A -> bool) l l' x :
  List.find f l = Some x -> List.find f (l ++ l') = Some x.
Proof. induction l as [|a l IH]; simpl; [done|]. destruct (f a); auto. Qed.

Lemma find_app_None {A} (f : A -> bool) l l' :
  List.find f l = None -> List.find f (l ++ l') = List.find f l'.
Proof. induction l as [|a l IH]; simpl; [done|]. destruct (f a); [done|auto]. Qed.

(** A document that [findOne] answers is still the answer after the store
    has grown. *)
Lemma lookup_extends k cond s s' d :
  extends s s' -> lookup k cond s = Some d -> lookup k cond s' = Some d.
Proof.
  intros [H _] Hl. destruct (H k) as [l' Hl']. unfold lookup in *.
  rewrite Hl'. by apply find_app_Some.
Qed.

Lemma lookup_elem k cond s d : lookup k cond s = Some d -> d ∈ coll s k /\ matches cond d = true.
Proof.
  unfold lookup. intros H. apply find_some in H as [H1 H2].
  split; [by apply list_elem_of_In | done].
Qed.

Lemma lookup_push_other k k' cond d s : k' <> k -> lookup k' cond (push k d s) = lookup k' cond s.
Proof. intros H. unfold lookup. rewrite coll_push. by case_decide. Qed.

Lemma lookup_push_new k cond d s :
  lookup k cond s = None -> matches cond d = true -> lookup k cond (push k d s) = Some d.
Proof.
  intros H Hm. unfold lookup in *. rewrite coll_push. case_decide; [|done].
  rewrite find_app_None by done. simpl. by rewrite Hm.
Qed.

(** ** Running the blocks *)

Lemma bind_inv {A B} (m : M A) (f : A -> M B) st c st' :
  (m ≫= f) st = (c, st') ->
  (exists a st1, m st = (Normal a, st1) /\ f a st1 = (c, st')) \/
  (exists e, m st = (Throw e, st') /\ c = Throw e).
Proof.
  unfold mbind, M_bind. destruct (m st) as [[a|e] st1]; intros H.
  - left. eauto.
  - right. inversion H; subst. eauto.
Qed.

Lemma bind_normal {A B} (m : M A) (f : A -> M B) st a st1 :
  m st = (Normal a, st1) -> (m ≫= f) st = f a st1.
Proof. unfold mbind, M_bind. by intros ->. Qed.

Lemma bind_throw {A B} (m : M A) (f : A -> M B) st e st1 :
  m st = (Throw e, st1) -> (m ≫= f) st = (Throw e, st1).
Proof. unfold mbind, M_bind. by intros ->. Qed.

Lemma resolve_cases k cond obj st c st' :
  resolve k cond obj st = (c, st') -> Resolves k cond obj st c st'.
Proof.
  unfold resolve, findOne, create_unless, create, count_new, mbind, M_bind, mret, M_ret.
  destruct (lookup k cond (db (arrive (Find k) st))) as [d|] eqn:Hl.
  - intros H; inversion H; subst. by constructor.
  - destruct (insert k obj (db (arrive (Create k) (arrive (Find k) st)))) as [e|[d s']] eqn:Hi;
      intros H; inversion H; subst.
    + by apply refused.
    + by apply created.
Qed.

Lemma arrive_db_extends op st : extends (db st) (db (arrive op st)).
Proof.
  unfold arrive. destruct (others st) as [|ws rest]; simpl; [done|].
  apply extends_commits.
Qed.

Lemma arrive_log op st : log (arrive op st) = log st ++ [op].
Proof. unfold arrive. by destruct (others st). Qed.

Lemma arrive_stats op st : stats (arrive op st) = stats st.
Proof. unfold arrive. by destruct (others st). Qed.

Lemma arrive_alone op st :
  others st = [] -> db (arrive op st) = db st /\ others (arrive op st) = [].
Proof. unfold arrive. by intros ->. Qed.

(** Whatever a block does, the store only grows. *)
Lemma Resolves_extends k cond obj st c st' :
  Resolves k cond obj st c st' -> extends (db st) (db st').
Proof.
  intros [d H|d s' st2 H Hi|e st2 H Hi]; simpl.
  - apply arrive_db_extends.
  - etrans; [apply arrive_db_extends|]. etrans; [apply arrive_db_extends|].
    by eapply extends_insert.
  - etrans; apply arrive_db_extends.
Qed.

(** The operations a block issues. *)
Lemma Resolves_log k cond obj st c st' :
  Resolves k cond obj st c st' ->
  exists made : bool,
    log st' = log st ++ Find k :: (if made then [Create k] else []) /\
    (made = false -> exists d, c = Normal d /\ stats st' = stats st) /\
    (forall e, c = Throw e -> made = true).
Proof.
  intros [d H|d s' st2 H Hi|e st2 H Hi]; simpl.
  - exists false. rewrite arrive_log, arrive_stats. split; [done|]. split; [eauto|discriminate].
  - exists true. subst st2. rewrite !arrive_log, <- app_assoc. split; [done|]. split; [discriminate|done].
  - exists true. subst st2. rewrite !arrive_log, <- app_assoc. split; [done|]. split; [discriminate|done].
Qed.

(** A block of a worker that has the store for itself. *)
Lemma Resolves_alone k cond obj st c st' :
  others st = [] ->
  Resolves k cond obj st c st' ->
  others st' = [] /\
  ((exists d, lookup k cond (db st) = Some d /\ c = Normal d /\
              db st' = db st /\ stats st' = stats st) \/
   (exists d, lookup k cond (db st) = None /\ insert k obj (db st) = inr (d, db st') /\
              c = Normal d /\ stats st' = Stats.incr k (stats st)) \/
   (exists e, lookup k cond (db st) = None /\ insert k obj (db st) = inl e /\
              c = Throw e /\ db st' = db st /\ stats st' = stats st)).
Proof.
  intros Ha Hr.
  destruct (arrive_alone (Find k) st Ha) as [E1 A1].
  destruct (arrive_alone (Create k) _ A1) as [E2 A2].
  destruct Hr as [d H|d s' st2 H Hi|e st2 H Hi]; subst; simpl.
  - split; [done|]. left. exists d. rewrite E1 in H. by rewrite arrive_stats.
  - subst st2. rewrite E2, E1 in Hi. rewrite E1 in H. split; [done|].
    right; left. exists d. by rewrite !arrive_stats.
  - subst st2. rewrite E2, E1 in Hi. rewrite E1 in H. split; [done|].
    right; right. exists e. rewrite E2, E1. by rewrite !arrive_stats.
Qed.

Section Rows.

Variable Date_parse : string -> option Z.

Implicit Types (row : Row) (rows : list Row) (st : State).

Lemma respects_ret {A} (R : relation State) `{!Reflexive R} (a : A) : respects R (mret a).
Proof. intros st c st' H. inversion H; subst. reflexivity. Qed.

Lemma respects_bind {A B} (R : relation State) `{!Transitive R} (m : M A) (f : A -> M B) :
  respects R m -> (forall a, respects R (f a)) -> respects R (m ≫= f).
Proof.
  intros Hm Hf st c st' [(a & st1 & H1 & H2)|(e & H1 & _)]%bind_inv.
  - etrans; [by eapply Hm | by eapply Hf].
  - by eapply Hm.
Qed.

Lemma respects_resolve R k cond obj : block_invariant R -> respects R (resolve k cond obj).
Proof. intros HR st c st' H. eapply HR. by apply resolve_cases. Qed.

Lemma respects_processRow R `{!PreOrder R} row :
  block_invariant R -> respects R (processRow Date_parse row).
Proof.
  intros HR. unfold processRow.
  repeat (apply respects_bind; [apply _ | by apply respects_resolve | intros ?]).
  apply respects_ret, _.
Qed.

Lemma respects_processRows R `{!PreOrder R} rows :
  block_invariant R -> respects R (processRows Date_parse rows).
Proof.
  intros HR. induction rows as [|row rows IH]; simpl.
  - apply respects_ret, _.
  - apply respects_bind; [apply _ | by apply respects_processRow | intros _; apply IH].
Qed.

(** *** The store only grows *)

#[local] Instance grows_preorder : PreOrder grows.
Proof.
  split.
  - intros st. unfold grows. reflexivity.
  - intros a b c H1 H2. unfold grows in *. by etrans.
Qed.

Lemma grows_block : block_invariant grows.
Proof. intros k cond obj st c st' H. by eapply Resolves_extends. Qed.

Lemma processRow_extends row st c st' :
  processRow Date_parse row st = (c, st') -> extends (db st) (db st').
Proof. apply (respects_processRow grows row grows_block). Qed.

Lemma processRows_extends rows st c st' :
  processRows Date_parse rows st = (c, st') -> extends (db st) (db st').
Proof. apply (respects_processRows grows rows grows_block). Qed.

(** *** A worker alone: each counter moves with its collection *)

#[local] Instance counted_preorder : PreOrder counted.
Proof.
  split.
  - intros st Ha. by split.
  - intros a b c H1 H2 Ha. destruct (H1 Ha) as [Hb E1]. destruct (H2 Hb) as [Hc E2].
    split; [done|]. intros k. specialize (E1 k). specialize (E2 k). lia.
Qed.

Lemma count_incr k s k' :
  Stats.count (Stats.incr k s) k' =
    if decide (k' = k) then S (Stats.count s k) else Stats.count s k'.
Proof. destruct k, k'; reflexivity. Qed.

Lemma counted_block : block_invariant counted.
Proof.
  intros k cond obj st c st' H Ha.
  destruct (Resolves_alone _ _ _ _ _ _ Ha H) as [Ha' Hc]. split; [done|]. intros k'.
  destruct Hc as [(d & _ & _ & -> & ->)|[(d & _ & Hi & _ & ->)|(e & _ & _ & _ & -> & ->)]];
    [done| |done].
  apply insert_inv in Hi as (fs & _ & _ & _ & ->).
  rewrite count_incr, coll_push. case_decide; subst; [|done].
  rewrite length_app. simpl. lia.
Qed.

Lemma processRows_counted rows st c st' :
  processRows Date_parse rows st = (c, st') -> counted st st'.
Proof. apply (respects_processRows counted rows counted_block). Qed.

Lemma processRow_counted row st c st' :
  processRow Date_parse row st = (c, st') -> counted st st'.
Proof. apply (respects_processRow counted row counted_block). Qed.

(** *** What a block leaves behind is found again *)

Lemma agrees_agent row : agrees Agent (agent_cond row) (agent_fields row).
Proof. repeat constructor. Qed.

Lemma agrees_user row : agrees User (user_cond row) (user_fields Date_parse row).
Proof. repeat constructor. Qed.

Lemma agrees_account row user : agrees Account (account_cond row user) (account_fields row user).
Proof. repeat constructor. Qed.

Lemma agrees_category row : agrees Category (category_cond row) (category_fields row).
Proof. repeat constructor. Qed.

Lemma agrees_carrier row : agrees Carrier (carrier_cond row) (carrier_fields row).
Proof. repeat constructor. Qed.

Lemma agrees_policy row u a c r g :
  agrees Policy (policy_cond row) (policy_fields Date_parse row u a c r g).
Proof. repeat constructor. Qed.

Lemma plain_elim k name :
  plain k name = true ->
  exists p, p ∈ schema k /\ path_name p = name /\ path_default p = None.
Proof.
  unfold plain. intros (p & Hin & H)%existsb_exists.
  apply bool_decide_eq_true in H as [H1 H2].
  exists p. by rewrite <- list_elem_of_In in Hin.
Qed.

Lemma created_matches k cond obj s d s' :
  agrees k cond obj -> insert k obj s = inr (d, s') -> matches cond d = true.
Proof.
  intros Ha Hi. unfold matches. apply forallb_forall. intros [name v] Hin.
  unfold agrees in Ha. rewrite Forall_forall in Ha.
  apply list_elem_of_In in Hin. destruct (Ha _ Hin) as [Hp Hv]. simpl in *.
  apply plain_elim in Hp as (p & Hps & <- & Hd).
  apply bool_decide_eq_true. rewrite (insert_get _ _ _ _ _ _ Hi Hps), Hv, Hd.
  by destruct v.
Qed.

(** Alone, the document a block ends with is the one [findOne] answers
    afterwards. *)
Lemma Resolves_lookup k cond obj st d st' :
  others st = [] -> agrees k cond obj ->
  Resolves k cond obj st (Normal d) st' ->
  others st' = [] /\ lookup k cond (db st') = Some d.
Proof.
  intros Ha Hag Hr. destruct (Resolves_alone _ _ _ _ _ _ Ha Hr) as [Ha' Hc].
  split; [done|].
  destruct Hc as [(d' & Hl & [= <-] & -> & _)|[(d' & Hl & Hi & [= <-] & _)|(e & _ & _ & [=] & _)]];
    [done|].
  pose proof (created_matches _ _ _ _ _ _ Hag Hi) as Hm.
  apply insert_inv in Hi as (fs & _ & _ & _ & ->).
  by apply lookup_push_new.
Qed.


Lemma settled_extends row s s' : extends s s' -> settled row s -> settled row s'.
Proof.
  intros He (agent & user & account & category & carrier & policy & H).
  exists agent, user, account, category, carrier, policy.
  repeat split; eapply lookup_extends; try exact He; apply H.
Qed.

(** The row as its six blocks. *)
Lemma processRow_blocks row :
  processRow Date_parse row =
    (agent ← resolve Agent (agent_cond row) (agent_fields row);
     user ← resolve User (user_cond row) (user_fields Date_parse row);
     account ← resolve Account (account_cond row user) (account_fields row user);
     category ← resolve Category (category_cond row) (category_fields row);
     carrier ← resolve Carrier (carrier_cond row) (carrier_fields row);
     policy ← resolve Policy (policy_cond row)
                (policy_fields Date_parse row user account category carrier agent);
     mret tt).
Proof. reflexivity. Qed.


(** One block of a row: split a run of [m ≫= f] into the block and the
    rest. *)
Ltac block H Hb :=
  apply bind_inv in H as [(? & ? & Hb & H)|(? & Hb & ?)];
  [apply resolve_cases in Hb | apply resolve_cases in Hb].

(** After a row has gone through, alone, it is settled. *)
Lemma settled_after row st st' :
  others st = [] ->
  processRow Date_parse row st = (Normal tt, st') ->
  others st' = [] /\ settled row (db st').
Proof.
  intros Ha H. rewrite processRow_blocks in H.
  block H H1; [|discriminate]. block H H2; [|discriminate].
  block H H3; [|discriminate]. block H H4; [|discriminate].
  block H H5; [|discriminate]. block H H6; [|discriminate].
  inversion H; subst; clear H.
  pose proof (Resolves_extends _ _ _ _ _ _ H2) as E2.
  pose proof (Resolves_extends _ _ _ _ _ _ H3) as E3.
  pose proof (Resolves_extends _ _ _ _ _ _ H4) as E4.
  pose proof (Resolves_extends _ _ _ _ _ _ H5) as E5.
  pose proof (Resolves_extends _ _ _ _ _ _ H6) as E6.
  apply Resolves_lookup in H1 as [A1 L1]; [|done|apply agrees_agent].
  apply Resolves_lookup in H2 as [A2 L2]; [|done|apply agrees_user].
  apply Resolves_lookup in H3 as [A3 L3]; [|done|apply agrees_account].
  apply Resolves_lookup in H4 as [A4 L4]; [|done|apply agrees_category].
  apply Resolves_lookup in H5 as [A5 L5]; [|done|apply agrees_carrier].
  apply Resolves_lookup in H6 as [A6 L6]; [|done|apply agrees_policy].
  split; [done|].
  eexists _, _, _, _, _, _. repeat split.
  - eapply lookup_extends; [|exact L1]. repeat (etrans; [eassumption|]). done.
  - eapply lookup_extends; [|exact L2]. repeat (etrans; [eassumption|]). done.
  - eapply lookup_extends; [|exact L3]. repeat (etrans; [eassumption|]). done.
  - eapply lookup_extends; [|exact L4]. repeat (etrans; [eassumption|]). done.
  - eapply lookup_extends; [|exact L5]. repeat (etrans; [eassumption|]). done.
  - exact L6.
Qed.

(** *** A batch run twice *)

Lemma processRows_settled rows st st' :
  others st = [] ->
  processRows Date_parse rows st = (Normal tt, st') ->
  others st' = [] /\ Forall (fun row => settled row (db st')) rows.
Proof.
  revert st. induction rows as [|row rows IH]; intros st Ha H; simpl in H.
  - inversion H; subst. by split.
  - apply bind_inv in H as [([] & st1 & H1 & H2)|(e & _ & [=])].
    destruct (settled_after _ _ _ Ha H1) as [Ha1 Hs].
    destruct (IH _ Ha1 H2) as [Ha' Hrest]. split; [done|].
    constructor; [|done].
    eapply settled_extends; [|exact Hs]. by eapply processRows_extends.
Qed.


Lemma collect_from (data acc : list Row) :
  fold_left (fun results row => results ++ [row]) data acc = acc ++ data.
Proof.
  revert acc. induction data as [|row data IH]; intros acc; simpl.
  - by rewrite app_nil_r.
  - rewrite IH. by rewrite <- app_assoc.
Qed.

Lemma collect_all (data : list Row) : collect data = data.
Proof. apply collect_from. Qed.

(** *** The order of the operations of a row *)

Ltac logged Hb m L T := apply Resolves_log in Hb as (m & L & _ & T).

Ltac failed_at T L :=
  rewrite (T _ eq_refl) in L; clear T; subst.

Ltac chain_logs :=
  repeat match goal with L : log _ = _ |- _ => rewrite L; clear L end;
  repeat match goal with m : bool |- _ => destruct m end;
  simpl; rewrite <- ?app_assoc; reflexivity.

Lemma processRow_log row st c st' :
  processRow Date_parse row st = (c, st') ->
  exists (n : nat) (made : Kind -> bool),
    log st' = log st ++ issued made (take n order) /\
    (c = Normal tt -> n = 6%nat) /\
    (forall e, c = Throw e -> exists k, last (take n order) = Some k /\ made k = true).
Proof.
  intros H. rewrite processRow_blocks in H.
  block H H1; logged H1 m1 L1 T1; [clear T1|failed_at T1 L1;
    exists 1%nat, (fun _ => true);
    split; [chain_logs|]; split; [discriminate|]; intros; by exists Agent].
  block H H2; logged H2 m2 L2 T2; [clear T2|failed_at T2 L2;
    exists 2%nat, (fun k => match k with Agent => m1 | _ => true end);
    split; [chain_logs|]; split; [discriminate|]; intros; by exists User].
  block H H3; logged H3 m3 L3 T3; [clear T3|failed_at T3 L3;
    exists 3%nat, (fun k => match k with Agent => m1 | User => m2 | _ => true end);
    split; [chain_logs|]; split; [discriminate|]; intros; by exists Account].
  block H H4; logged H4 m4 L4 T4; [clear T4|failed_at T4 L4;
    exists 4%nat, (fun k => match k with Agent => m1 | User => m2 | Account => m3 | _ => true end);
    split; [chain_logs|]; split; [discriminate|]; intros; by exists Category].
  block H H5; logged H5 m5 L5 T5; [clear T5|failed_at T5 L5;
    exists 5%nat, (fun k => match k with
                           | Agent => m1 | User => m2 | Account => m3 | Category => m4
                           | _ => true end);
    split; [chain_logs|]; split; [discriminate|]; intros; by exists Carrier].
  block H H6; logged H6 m6 L6 T6; [clear T6|failed_at T6 L6;
    exists 6%nat, (fun k => match k with
                           | Agent => m1 | User => m2 | Account => m3 | Category => m4
                           | Carrier => m5 | Policy => true end);
    split; [chain_logs|]; split; [discriminate|]; intros; by exists Policy].
  inversion H; subst; clear H.
  exists 6%nat, (fun k => match k with
                         | Agent => m1 | User => m2 | Account => m3 | Category => m4
                         | Carrier => m5 | Policy => m6 end).
  split; [chain_logs|]. split; [done|discriminate].
Qed.

(** *** Object ids and references *)





#[local] Instance well_kept_preorder : PreOrder well_kept.
Proof. split; [intros st H; exact H | intros a b c H1 H2 H; apply H2, H1, H]. Qed.



(** The document a block ends with is in the collection and meets the
    condition of the lookup. *)
Lemma Resolves_elem k cond obj st d st' :
  agrees k cond obj ->
  Resolves k cond obj st (Normal d) st' ->
  d ∈ coll (db st') k /\ matches cond d = true.
Proof.
  intros Hag Hr. inversion Hr as [d' H|d' s' st2 H Hi|]; subst; simpl.
  - by apply lookup_elem in H.
  - split; [|by eapply created_matches].
    apply insert_inv in Hi as (fs & _ & _ & _ & ->).
    rewrite coll_push. case_decide; [|done]. apply elem_of_app. right. by left.
Qed.

Lemma extends_elem s s' k d : extends s s' -> d ∈ coll s k -> d ∈ coll s' k.
Proof. intros [H _] Hd. destruct (H k) as [l ->]. apply elem_of_app. by left. Qed.


(** *** Policies and their numbers *)

Lemma insert_error_model k obj s e : insert k obj s = inl e -> error_model e = Some k.
Proof.
  unfold insert. destruct (build _ _) as [[|err errs] fs].
  - destruct (duplicate _ _ _) as [[p v]|]; [|discriminate]. by intros [= <-].
  - by intros [= <-].
Qed.

(** Alone, a block of another model leaves the policies and their counter
    as they are, and an error it throws is about its own model. *)
Lemma Resolves_aside k cond obj st c st' :
  others st = [] -> k <> Policy ->
  Resolves k cond obj st c st' ->
  others st' = [] /\
  policies (db st') = policies (db st) /\
  Stats.policies (stats st') = Stats.policies (stats st) /\
  (forall e, c = Throw e -> error_model e = Some k).
Proof.
  intros Ha Hk Hr. destruct (Resolves_alone _ _ _ _ _ _ Ha Hr) as [Ha' Hc]. split; [done|].
  destruct Hc as [(d & _ & -> & -> & ->)|[(d & _ & Hi & -> & ->)|(e & _ & Hi & -> & -> & ->)]].
  - repeat split; [done..|discriminate].
  - apply insert_inv in Hi as (fs & _ & _ & _ & ->). repeat split; [| |discriminate].
    + change (coll (push k d (db st)) Policy = coll (db st) Policy).
      rewrite coll_push. by case_decide.
    + change (Stats.count (Stats.incr k (stats st)) Policy = Stats.count (stats st) Policy).
      rewrite count_incr. by case_decide.
  - repeat split; [done..|]. intros e' [= <-]. by eapply insert_error_model.
Qed.

(** A row processed alone: either one of the first five blocks throws,
    with the policies untouched, or the Policy block runs on a state with the
    policies untouched and decides the outcome. *)
Lemma processRow_policy_block row st c st' :
  others st = [] ->
  processRow Date_parse row st = (c, st') ->
  (exists e k, c = Throw e /\ error_model e = Some k /\ k <> Policy /\
      others st' = [] /\ policies (db st') = policies (db st) /\
      Stats.policies (stats st') = Stats.policies (stats st)) \/
  (exists user account category carrier agent st5 c6,
      others st5 = [] /\ policies (db st5) = policies (db st) /\
      Stats.policies (stats st5) = Stats.policies (stats st) /\
      Resolves Policy (policy_cond row)
        (policy_fields Date_parse row user account category carrier agent) st5 c6 st' /\
      c = match c6 with Normal _ => Normal tt | Throw e => Throw e end).
Proof.
  intros Ha H. rewrite processRow_blocks in H.
  block H H1; apply Resolves_aside in H1 as (A1 & P1 & S1 & T1); try done;
    [|subst; left; eexists _, Agent; rewrite P1, S1, (T1 _ eq_refl); by repeat split].
  block H H2; apply Resolves_aside in H2 as (A2 & P2 & S2 & T2); try done;
    [|subst; left; eexists _, User; rewrite P2, S2, P1, S1, (T2 _ eq_refl); by repeat split].
  block H H3; apply Resolves_aside in H3 as (A3 & P3 & S3 & T3); try done;
    [|subst; left; eexists _, Account; rewrite P3, S3, P2, S2, P1, S1, (T3 _ eq_refl);
      by repeat split].
  block H H4; apply Resolves_aside in H4 as (A4 & P4 & S4 & T4); try done;
    [|subst; left; eexists _, Category; rewrite P4, S4, P3, S3, P2, S2, P1, S1, (T4 _ eq_refl);
      by repeat split].
  block H H5; apply Resolves_aside in H5 as (A5 & P5 & S5 & T5); try done;
    [|subst; left; eexists _, Carrier;
      rewrite P5, S5, P4, S4, P3, S3, P2, S2, P1, S1, (T5 _ eq_refl); by repeat split].
  right. block H H6.
  - inversion H; subst; clear H. eexists _, _, _, _, _, _, (Normal _).
    split; [exact A5|]. split; [congruence|]. split; [congruence|]. split; [exact H6|done].
  - subst. eexists _, _, _, _, _, _, (Throw _).
    split; [exact A5|]. split; [congruence|]. split; [congruence|]. split; [exact H6|done].
Qed.

Lemma matches_policy_cond row d :
  matches (policy_cond row) d = bool_decide (number d = row_number row).
Proof. unfold matches, policy_cond. simpl. by rewrite andb_true_r. Qed.

Lemma lookup_policy_None row s :
  lookup Policy (policy_cond row) s = None -> row_number row ∉ map number (policies s).
Proof.
  unfold lookup. simpl. intros H (d & E & Hd)%list_elem_of_In%in_map_iff.
  eapply find_none in H; [|exact Hd]. rewrite matches_policy_cond in H.
  by apply bool_decide_eq_false in H.
Qed.

Lemma lookup_policy_known row s :
  row_number row ∈ map number (policies s) ->
  exists p, lookup Policy (policy_cond row) s = Some p.
Proof.
  intros Hin. destruct (lookup Policy (policy_cond row) s) as [p|] eqn:Hl; [eauto|].
  by apply lookup_policy_None in Hl.
Qed.

(** A row processed alone adds no policy, or adds exactly one, with the
    number of the row, which no policy had before, and counts it. *)
Lemma processRow_policies row st c st' :
  others st = [] ->
  processRow Date_parse row st = (c, st') ->
  others st' = [] /\
  (forall e, c = Throw e -> error_model e = Some Policy ->
             lookup Policy (policy_cond row) (db st) = None) /\
  ((policies (db st') = policies (db st) /\
    Stats.policies (stats st') = Stats.policies (stats st) /\
    (c = Normal tt -> exists p, lookup Policy (policy_cond row) (db st) = Some p)) \/
   (exists p, c = Normal tt /\
      lookup Policy (policy_cond row) (db st) = None /\
      policies (db st') = policies (db st) ++ [p] /\
      number p = row_number row /\
      Stats.policies (stats st') = S (Stats.policies (stats st)))).
Proof.
  intros Ha H.
  destruct (processRow_policy_block _ _ _ _ Ha H)
    as [(e & k & -> & Hm & Hk & Ha' & HP & HS)
       |(user & account & category & carrier & agent & st5 & c6 & A5 & P5 & S5 & H6 & ->)].
  { split; [done|]. split; [intros e' [= <-]; congruence|]. left. by repeat split. }
  assert (Hsame : forall cond, lookup Policy cond (db st5) = lookup Policy cond (db st)).
  { intros cond. unfold lookup. simpl. by rewrite P5. }
  pose proof (agrees_policy row user account category carrier agent) as Hag.
  destruct (Resolves_alone _ _ _ _ _ _ A5 H6) as [A6 Hc]. split; [done|].
  destruct Hc as [(d & Hl & -> & E & S6)|[(d & Hl & Hi & -> & S6)|(e & Hl & Hi & -> & E & S6)]];
    rewrite Hsame in Hl.
  - split; [discriminate|]. left. rewrite E, S6, P5, S5. repeat split; eauto.
  - split; [discriminate|]. right. exists d. split; [done|]. split; [done|].
    pose proof (created_matches _ _ _ _ _ _ Hag Hi) as Hm.
    rewrite matches_policy_cond in Hm. apply bool_decide_eq_true in Hm.
    apply insert_inv in Hi as (fs & _ & _ & _ & Hs').
    split; [|split; [done|]].
    + change (coll (db st') Policy = coll (db st) Policy ++ [d]).
      rewrite Hs', coll_push. case_decide; [|done]. simpl. by rewrite P5.
    + rewrite S6. simpl. by rewrite S5.
  - split; [done|]. left. rewrite E, S6, P5, S5. repeat split; [done..|discriminate].
Qed.

(** A row whose policy number the store already has, processed alone:
    whatever the other blocks do, no policy is added, none is changed, the
    counter stays, and no error comes from the Policy block. *)
Lemma processRow_known_policy row st p c st' :
  others st = [] ->
  lookup Policy (policy_cond row) (db st) = Some p ->
  processRow Date_parse row st = (c, st') ->
  others st' = [] /\
  policies (db st') = policies (db st) /\
  Stats.policies (stats st') = Stats.policies (stats st) /\
  (forall e, c = Throw e -> error_model e <> Some Policy).
Proof.
  intros Ha Hp H.
  destruct (processRow_policies _ _ _ _ Ha H) as (Ha' & He & [(HP & HS & _)|(q & _ & Hn & _)]);
    [|congruence].
  repeat split; try done. intros e -> Hm. specialize (He _ eq_refl Hm). congruence.
Qed.

(** A batch processed alone: the numbers of the policies it adds are
    distinct, none was in the store, each is the number of a row, and the
    counter moves by their count. *)
Lemma processRows_policy_numbers rows st c st' :
  others st = [] ->
  processRows Date_parse rows st = (c, st') ->
  others st' = [] /\
  exists news,
    map number (policies (db st')) = map number (policies (db st)) ++ news /\
    NoDup news /\
    (forall v, v ∈ news -> (v ∉ map number (policies (db st))) /\ (v ∈ map row_number rows)) /\
    Stats.policies (stats st') = (Stats.policies (stats st) + length news)%nat.
Proof.
  revert st. induction rows as [|row rows IH]; intros st Ha H; simpl in H.
  - inversion H; subst. split; [done|]. exists []. rewrite app_nil_r. simpl.
    split; [done|]. split; [constructor|]. split; [|lia]. intros v Hv; inversion Hv.
  - assert (Hrow : exists c1 st1, processRow Date_parse row st = (c1, st1) /\
        (c1 = Normal tt /\ processRows Date_parse rows st1 = (c, st') \/
         st1 = st' /\ exists e, c1 = Throw e /\ c = Throw e)).
    { apply bind_inv in H as [([] & st1 & H1 & H2)|(e & H1 & ->)]; eauto 10. }
    destruct Hrow as (c1 & st1 & H1 & Hrest).
    destruct (processRow_policies _ _ _ _ Ha H1) as (A1 & _ & Hp).
    assert (Hfirst : exists n1,
      map number (policies (db st1)) = map number (policies (db st)) ++ n1 /\
      NoDup n1 /\
      (forall v, v ∈ n1 -> (v ∉ map number (policies (db st))) /\ v = row_number row) /\
      Stats.policies (stats st1) = (Stats.policies (stats st) + length n1)%nat).
    { destruct Hp as [(HP & HS & _)|(p & _ & Hn & HP & Hnum & HS)].
      - exists []. rewrite HP, HS, app_nil_r. simpl.
        split; [done|]. split; [constructor|]. split; [|lia]. intros v Hv; inversion Hv.
      - exists [number p]. rewrite HP, HS, map_app. simpl.
        split; [done|]. split; [apply NoDup_singleton|]. split; [|lia].
        intros v ->%list_elem_of_singleton. split; [|done].
        rewrite Hnum. by apply lookup_policy_None. }
    destruct Hfirst as (n1 & E1 & D1 & F1 & S1).
    destruct Hrest as [[-> H2]|(-> & e & -> & ->)].
    + destruct (IH _ A1 H2) as (A' & n2 & E2 & D2 & F2 & S2). split; [done|].
      exists (n1 ++ n2). rewrite E2, E1, <- app_assoc, length_app.
      split; [done|]. split; [|split; [|lia]].
      * apply NoDup_app. split; [done|]. split; [|done].
        intros v Hv Hv2. apply F2 in Hv2 as [Hv2 _]. apply Hv2.
        rewrite E1. apply elem_of_app. by right.
      * intros v Hv. simpl. apply elem_of_app in Hv as [Hv|Hv].
        -- apply F1 in Hv as [Hv ->]. split; [done|]. by left.
        -- apply F2 in Hv as [Hv Hin]. split; [|by right].
           intros Hin'. apply Hv. rewrite E1. apply elem_of_app. by left.
    + split; [done|]. exists n1. split; [done|]. split; [done|]. split; [|done].
      intros v Hv. simpl. apply F1 in Hv as [Hv ->]. split; [done|]. by left.
Qed.

Lemma processRows_app rows1 rows2 st :
  processRows Date_parse (rows1 ++ rows2) st =
    (_ ← processRows Date_parse rows1; processRows Date_parse rows2) st.
Proof.
  revert st. induction rows1 as [|row rows1 IH]; intros st; simpl; [done|].
  unfold mbind, M_bind in *.
  destruct (processRow Date_parse row st) as [[[]|e] st1]; [apply IH|done].
Qed.

(** *** What a created document holds *)

(** The block ends with a document it has created itself. *)
Lemma resolve_created k cond obj st d st' :
  resolve k cond obj st = (Normal d, st') ->
  last (log st') = Some (Create k) ->
  exists s, insert k obj s = inr (d, db st').
Proof.
  intros Hr%resolve_cases Hlast. inversion Hr as [d' H|d' s' st2 H Hi|]; subst.
  - rewrite arrive_log, last_snoc in Hlast. discriminate.
  - simpl. eauto.
Qed.

(** A path of the schema that is given a value other than [undefined]
    holds this value in the created document. *)
Lemma insert_get_given k obj s d s' name v :
  insert k obj s = inr (d, s') ->
  In name (map path_name (schema k)) ->
  prop (object obj) name = v ->
  v <> VUndefined ->
  get d name = v.
Proof.
  intros Hi (ps & <- & Hin)%in_map_iff Hv Hne. apply list_elem_of_In in Hin.
  rewrite (insert_get _ _ _ _ _ _ Hi Hin), Hv. by destruct v.
Qed.

Lemma policy_prop_policy_mode row u a c r g :
  prop (object (policy_fields Date_parse row u a c r g)) "policy_mode"
    = or_else (VNum (parseInt (row !! "policy_mode"))) VNull.
Proof. reflexivity. Qed.

(** *** Dates *)




(** *** Errors *)





(** *** Uniqueness violations need another writer *)

Lemma duplicate_elem ps docs fs name v :
  duplicate ps docs fs = Some (name, v) ->
  exists p d, p ∈ ps /\ unique p = true /\ name = path_name p /\
              d ∈ docs /\ get d name = default VNull (fs !! name).
Proof.
  unfold duplicate.
  destruct (filter _ ps) as [|p rest] eqn:Hf; [discriminate|]. intros [= <- <-].
  assert (Hp : p ∈ filter (fun p => (unique p && existsb (fun d =>
                 bool_decide (get d (path_name p) = default VNull (fs !! path_name p))) docs
               = true)%bool) ps) by (rewrite Hf; by left).
  apply list_elem_of_filter in Hp as [Ht Hin].
  apply andb_true_iff in Ht as [Hu (d & Hd & He)%existsb_exists].
  apply bool_decide_eq_true in He. apply list_elem_of_In in Hd.
  by exists p, d.
Qed.

(** After a lookup by the unique path has found nothing, the create is not
    refused for uniqueness on the same store. *)
Lemma insert_not_duplicate k cond obj s e :
  keyed k cond obj ->
  lookup k cond s = None ->
  insert k obj s = inl e ->
  exists errs, e = ValidationError k errs.
Proof.
  intros Hk Hl. unfold insert.
  destruct (build (object obj) (schema k)) as [[|err errs] fs] eqn:Hb; [|intros [= <-]; eauto].
  destruct (duplicate (schema k) (coll s k) fs) as [[name v]|] eqn:Hd; [|discriminate].
  exfalso. apply duplicate_elem in Hd as (p & d & Hp & Hu & -> & Hin & Hget).
  destruct (Hk p Hp Hu) as [Hdef Hcond].
  destruct (build_lookup _ _ _ _ Hb (schema_NoDup k) Hp) as (ov & Hbp & Hfs).
  apply build_path_value in Hbp. rewrite Hdef in Hbp.
  assert (Hm : matches cond d = true).
  { rewrite Hcond. unfold matches. simpl. rewrite andb_true_r. apply bool_decide_eq_true.
    rewrite Hget, Hfs, Hbp. by destruct (prop (object obj) (path_name p)). }
  unfold lookup in Hl. apply list_elem_of_In in Hin.
  pose proof (find_none _ _ Hl _ Hin). congruence.
Qed.

Ltac keyed_paths :=
  intros p Hin Hu; simpl in Hin;
  repeat (apply elem_of_cons in Hin as [->|Hin]; [try discriminate Hu|]);
  [..|inversion Hin]; by split.

Lemma keyed_agent row : keyed Agent (agent_cond row) (agent_fields row).
Proof. keyed_paths. Qed.

Lemma keyed_user row : keyed User (user_cond row) (user_fields Date_parse row).
Proof. keyed_paths. Qed.

Lemma keyed_account row user : keyed Account (account_cond row user) (account_fields row user).
Proof. keyed_paths. Qed.

Lemma keyed_category row : keyed Category (category_cond row) (category_fields row).
Proof. keyed_paths. Qed.

Lemma keyed_carrier row : keyed Carrier (carrier_cond row) (carrier_fields row).
Proof. keyed_paths. Qed.

Lemma keyed_policy row u a c r g :
  keyed Policy (policy_cond row) (policy_fields Date_parse row u a c r g).
Proof. keyed_paths. Qed.

Lemma Resolves_alone_error k cond obj st e st' :
  others st = [] -> keyed k cond obj ->
  Resolves k cond obj st (Throw e) st' ->
  exists errs, e = ValidationError k errs.
Proof.
  intros Ha Hk Hr. destruct (Resolves_alone _ _ _ _ _ _ Ha Hr) as [_ Hc].
  destruct Hc as [(d & _ & [=] & _)|[(d & _ & _ & [=] & _)|(e' & Hl & Hi & [= <-] & _)]].
  by eapply insert_not_duplicate.
Qed.

Ltac refused Hb A Hk :=
  match goal with E : Throw _ = Throw _ |- _ => injection E as <- end;
  eexists; eapply Resolves_alone_error; [exact A | apply Hk | exact Hb].

(** A worker that has the store for itself never has a create refused for
    uniqueness: an error of a row is a validation error. *)
Lemma processRow_alone_error row st e st' :
  others st = [] ->
  processRow Date_parse row st = (Throw e, st') ->
  exists k errs, e = ValidationError k errs.
Proof.
  intros A0 H. rewrite processRow_blocks in H.
  block H H1; [|refused H1 A0 keyed_agent].
  pose proof (proj1 (Resolves_alone _ _ _ _ _ _ A0 H1)) as A1.
  block H H2; [|refused H2 A1 keyed_user].
  pose proof (proj1 (Resolves_alone _ _ _ _ _ _ A1 H2)) as A2.
  block H H3; [|refused H3 A2 keyed_account].
  pose proof (proj1 (Resolves_alone _ _ _ _ _ _ A2 H3)) as A3.
  block H H4; [|refused H4 A3 keyed_category].
  pose proof (proj1 (Resolves_alone _ _ _ _ _ _ A3 H4)) as A4.
  block H H5; [|refused H5 A4 keyed_carrier].
  pose proof (proj1 (Resolves_alone _ _ _ _ _ _ A4 H5)) as A5.
  block H H6; [|refused H6 A5 keyed_policy].
  discriminate.
Qed.

Lemma processRows_alone_error rows st e st' :
  others st = [] ->
  processRows Date_parse rows st = (Throw e, st') ->
  exists k errs, e = ValidationError k errs.
Proof.
  revert st. induction rows as [|row rows IH]; intros st Ha H; simpl in H; [discriminate|].
  apply bind_inv in H as [([] & st1 & H1 & H2)|(e' & H1 & [= <-])].
  - eapply IH; [|exact H2]. by destruct (processRow_counted _ _ _ _ H1 Ha).
  - by eapply processRow_alone_error.
Qed.

(** *** The policy mode *)

(** What a created policy holds for [policy_mode]: the double of the
    integer that [parseInt] reads if it is not 0, and [null] otherwise. *)
Lemma policy_mode_stored row user account category carrier agent st p st' :
  processPolicy Date_parse row user account category carrier agent st = (Normal p, st') ->
  last (log st') = Some (Create Policy) ->
  get p "policy_mode" =
    match parseInt_Z (ToString (row !! "policy_mode")) with
    | Some z => if z =? 0 then VNull else VNum (to_double (inject_Z z))
    | None => VNull
    end.
Proof.
  intros H Hlast. destruct (resolve_created _ _ _ _ _ _ H Hlast) as (s & Hi).
  assert (Hget : get p "policy_mode" = or_else (VNum (parseInt (row !! "policy_mode"))) VNull).
  { eapply insert_get_given; [exact Hi| |apply policy_prop_policy_mode|].
    - simpl. tauto.
    - unfold or_else. destruct (truthy _); discriminate. }
  rewrite Hget. unfold parseInt, or_else.
  destruct (parseInt_Z _) as [z|]; [|done].
  rewrite to_double_integer. by destruct (z =? 0).
Qed.

(** ** The claims *)

(** C1. In a batch that a worker processes alone, let a row [r2] come after
    a row [r1] with the same [policy_number], the rows up to [r2] having gone
    through. Then the lookup of [r2] finds a policy; processing [r2] leaves
    the collection of policies as it is (no second policy, the existing one
    unchanged); an error, if [r2] throws one, does not come from the Policy
    block; and over the whole batch the numbers of the policies added are
    pairwise distinct, the counter of policies has moved by their count, and
    the shared number is one of them if the store did not have it before. *)
Theorem same_policy_number_is_skipped rows1 r1 rows2 r2 st st1 c st2 :
  others st = [] ->
  field r1 "policy_number" = field r2 "policy_number" ->
  processRows Date_parse (rows1 ++ r1 :: rows2) st = (Normal tt, st1) ->
  processRow Date_parse r2 st1 = (c, st2) ->
  (exists p, lookup Policy (policy_cond r2) (db st1) = Some p) /\
  policies (db st2) = policies (db st1) /\
  (forall e, c = Throw e -> error_model e <> Some Policy) /\
  exists news,
    map number (policies (db st2)) = map number (policies (db st)) ++ news /\
    NoDup news /\
    Stats.policies (stats st2) = (Stats.policies (stats st) + length news)%nat /\
    (row_number r2 ∉ map number (policies (db st)) -> row_number r2 ∈ news).
Proof.
  intros Ha Hsame H1 H2.
  destruct (processRows_settled _ _ _ Ha H1) as [Ha1 Hall].
  rewrite Forall_forall in Hall.
  destruct (Hall r1) as (_ & _ & _ & _ & _ & p & _ & _ & _ & _ & _ & Hp).
  { apply elem_of_app. right. by left. }
  assert (Hcond : policy_cond r2 = policy_cond r1) by (unfold policy_cond; by rewrite Hsame).
  rewrite <- Hcond in Hp.
  destruct (processRow_known_policy _ _ _ _ _ Ha1 Hp H2) as (Ha2 & HP & HS & He).
  split; [eauto|]. split; [done|]. split; [done|].
  destruct (processRows_policy_numbers _ _ _ _ Ha H1) as (_ & news & E & D & F & S1).
  exists news. rewrite HP, HS. split; [done|]. split; [done|]. split; [done|].
  intros Hnew. apply lookup_elem in Hp as [Hin Hm].
  rewrite matches_policy_cond in Hm. apply bool_decide_eq_true in Hm.
  assert (Hn : row_number r2 ∈ map number (policies (db st1))).
  { rewrite <- Hm. apply list_elem_of_In, in_map, list_elem_of_In, Hin. }
  rewrite E in Hn. apply elem_of_app in Hn as [Hn|Hn]; done.
Qed.



(** C8. When the stream of a batch fails, on the file stream or on the
    parser, whatever rows were read before: no store operation is issued and
    the state is left as it was; no statistics are posted; the promise of
    the caller is settled with the failure, rejected with the error of the
    file stream, or resolved with the message of the error of the parser;
    and the reply to the upload carries the message of the error and no
    statistics. *)
Theorem stream_failure_writes_nothing data on error st :
  let run := worker Date_parse (Fails data on error) st in
  final run = st /\
  (forall s, StatsMessage s ∉ posted run) /\
  processCSV (events run) =
    match on with
    | FileStream => Rejected error
    | Parser => Resolved (ErrorMessage (message error))
    end /\
  (forall file,
     upload (Some file) (processCSV (events run)) None =
       Some match on with
            | FileStream => mkResponse 500 (ErrorBody (message error))
            | Parser => mkResponse 200 (Processed "File processed successfully"
                                          (ErrorMessage (message error)))
            end).
Proof.
  destruct on; simpl; repeat split; try done.
  - intros s Hin. inversion Hin.
  - intros s [E|Hin]%elem_of_cons; [discriminate|inversion Hin].
Qed.


(** C10. When the rows of a stream that has ended make the loop fail with
    an error, the worker posts an object with the message of the error, by
    the same call that posts the statistics of a run that goes through; the
    promise of [processCSV] is resolved with this object, not rejected; and
    the upload is answered with status 200 and the object in the place of
    the statistics. *)
Theorem row_failure_is_reported_as_success data st e st' :
  processRows Date_parse (collect data) st = (Throw e, st') ->
  let run := worker Date_parse (Ends data) st in
  posted run = [ErrorMessage (message e)] /\
  events run = [OnMessage (ErrorMessage (message e))] /\
  processCSV (events run) = Resolved (ErrorMessage (message e)) /\
  (forall file,
     upload (Some file) (processCSV (events run)) None =
       Some (mkResponse 200 (Processed "File processed successfully"
                               (ErrorMessage (message e))))) /\
  (forall st0 st1,
     processRows Date_parse (collect data) st0 = (Normal tt, st1) ->
     let ok := worker Date_parse (Ends data) st0 in
     posted ok = [StatsMessage (stats st1)] /\
     processCSV (events ok) = Resolved (StatsMessage (stats st1))).
Proof.
  intros H. unfold worker, processFile. rewrite H. simpl.
  split; [done|]. split; [done|]. split; [done|]. split; [done|].
  intros s0 s1 H1. rewrite H1. simpl. done.
Qed.

End Rows.

(** *** What the store holds after a create *)

(** A path of the schema is set in the created document to the value
    given for it, or to its default when none is given, and is left unset
    when there is neither. *)
Lemma insert_field k obj s d s' p :
  insert k obj s = inr (d, s') ->
  p ∈ schema k ->
  fields d !! path_name p =
    match prop (object obj) (path_name p) with
    | VUndefined => path_default p
    | v => Some v
    end.
Proof.
  intros (fs & Hb & _ & -> & _)%insert_inv Hin.
  destruct (build_lookup _ _ _ _ Hb (schema_NoDup k) Hin) as (ov & Hp & Hfs).
  apply build_path_value in Hp. simpl. by rewrite Hfs, Hp.
Qed.

(** The created document is the last of its collection. *)
Lemma insert_stored k obj s d s' :
  insert k obj s = inr (d, s') -> coll s' k = coll s k ++ [d].
Proof.
  intros (fs & _ & _ & _ & ->)%insert_inv. rewrite coll_push. by case_decide.
Qed.

(** A block that ends on a create and hands back a document has put this
    document into the store, after those that were there. *)
Lemma Resolves_stored k cond obj st d st' :
  Resolves k cond obj st (Normal d) st' ->
  last (log st') = Some (Create k) ->
  exists s,
    insert k obj s = inr (d, db st') /\
    extends (db st) s /\
    coll (db st') k = coll s k ++ [d].
Proof.
  intros Hr Hlast. inversion Hr as [d' H|d' s' st2 H Hi|]; subst.
  - rewrite arrive_log, last_snoc in Hlast. discriminate.
  - subst st2. simpl. eexists. split; [exact Hi|]. split.
    + etrans; apply arrive_db_extends.
    + by eapply insert_stored.
Qed.

Lemma stored_after k st d st' s :
  extends (db st) s ->
  coll (db st') k = coll s k ++ [d] ->
  exists before, coll (db st') k = before ++ [d] /\ coll (db st) k `prefix_of` before.
Proof. intros [He _] Hc. exists (coll s k). split; [done|apply He]. Qed.


Section Fields.

Variable Date_parse : string -> option Z.

Implicit Types (row : Row) (rows : list Row) (st : State).

Ltac block H Hb :=
  apply bind_inv in H as [(? & ? & Hb & H)|(? & Hb & ?)];
  [apply resolve_cases in Hb | apply resolve_cases in Hb].

(** A path of the schema that is given a value other than [undefined] is
    set to this value in the created document. *)
Lemma insert_field_given k obj s d s' name v :
  insert k obj s = inr (d, s') ->
  In name (map path_name (schema k)) ->
  prop (object obj) name = v ->
  v <> VUndefined ->
  fields d !! name = Some v.
Proof.
  intros Hi (ps & <- & Hin)%in_map_iff Hv Hne. apply list_elem_of_In in Hin.
  rewrite (insert_field _ _ _ _ _ _ Hi Hin), Hv. by destruct v.
Qed.

(** *** Dates *)



(** *** Premiums *)

(** [parseFloat(text) || 0] *)
Lemma premium_value f :
  or_else (VNum (parseFloat f)) (VNum zero)
  = VNum (match parseFloat f with NaN => zero | n => n end).
Proof.
  unfold or_else. destruct (parseFloat f) as [|negative|q] eqn:E; simpl; [done..|].
  destruct (is_zero q) eqn:Hz; simpl; [|done].
  by rewrite (parseFloat_zero _ _ E Hz).
Qed.

(** ** The claims on the fields of a policy and of a user *)


(** C6, as the code has it. A policy that is created is stored, the last
    of its collection, and holds for [premium_amount], and likewise for
    [premium_amount_written], what [parseFloat(text) || 0] is: the double
    that [parseFloat] reads from the longest beginning of the text that is a
    number, and [0] when the text has no such beginning, which is the case
    of a missing field and of the empty text. A text that is a decimal
    number as a whole is stored as the double nearest to this number. The
    path holds [0] exactly when the text does not start like a number or the
    number read is [0]. *)
Theorem premiums_default_to_zero row user account category carrier agent st p st' name :
  processPolicy Date_parse row user account category carrier agent st = (Normal p, st') ->
  last (log st') = Some (Create Policy) ->
  name = "premium_amount" \/ name = "premium_amount_written" ->
  (exists before, policies (db st') = before ++ [p] /\
                  policies (db st) `prefix_of` before) /\
  (numeric (ToString (row !! name)) = true ->
     fields p !! name = Some (VNum (parseFloat (row !! name))) /\
     parseFloat (row !! name) <> NaN) /\
  (forall text x, row !! name = Some text -> decimal text = Some x ->
     fields p !! name = Some (VNum (to_double x))) /\
  (numeric (ToString (row !! name)) = false -> fields p !! name = Some (VNum zero)) /\
  (row !! name = None \/ row !! name = Some "" -> fields p !! name = Some (VNum zero)) /\
  (fields p !! name = Some (VNum zero) <->
     numeric (ToString (row !! name)) = false \/ parseFloat (row !! name) = zero).
Proof.
  intros H%resolve_cases Hlast Hname.
  destruct (Resolves_stored _ _ _ _ _ _ H Hlast) as (s & Hi & He & Hc).
  split; [exact (stored_after Policy st p st' s He Hc)|].
  assert (Hf : fields p !! name
               = Some (VNum (match parseFloat (row !! name) with NaN => zero | n => n end))).
  { rewrite <- premium_value. destruct Hname as [->| ->].
    - eapply insert_field_given; [exact Hi| |reflexivity|].
      + simpl. tauto.
      + unfold or_else. destruct (truthy _); discriminate.
    - eapply insert_field_given; [exact Hi| |reflexivity|].
      + simpl. tauto.
      + unfold or_else. destruct (truthy _); discriminate. }
  assert (Hnum : numeric (ToString (row !! name)) = true ->
                 fields p !! name = Some (VNum (parseFloat (row !! name))) /\
                 parseFloat (row !! name) <> NaN).
  { intros Hn. assert (Hnan : parseFloat (row !! name) <> NaN).
    { intros E%parseFloat_NaN. congruence. }
    split; [|done]. rewrite Hf. by destruct (parseFloat (row !! name)). }
  assert (Hnon : numeric (ToString (row !! name)) = false ->
                 fields p !! name = Some (VNum zero)).
  { intros Hn%parseFloat_NaN. by rewrite Hf, Hn. }
  split; [exact Hnum|]. split; [|split; [exact Hnon|split]].
  - intros text x E Hx. rewrite Hf, E, (parseFloat_decimal _ _ Hx).
    pose proof (to_double_not_NaN x). by destruct (to_double x).
  - intros [E|E]; apply Hnon; rewrite E; reflexivity.
  - split.
    + intros Hz. destruct (numeric (ToString (row !! name))) eqn:Hn; [right|by left].
      destruct (Hnum eq_refl) as [Hv _]. rewrite Hv in Hz. by injection Hz.
    + intros [Hn|Hz]; [by apply Hnon|]. by rewrite Hf, Hz.
Qed.

(** C7. A policy that is created is stored, the last of its collection,
    and holds [true] for [primary], and likewise for [hasActive], if and
    only if the text of the field is exactly [true]; for any other text,
    such as [TRUE], and for a missing field, it holds [false]. *)
Theorem flags_true_only_for_true row user account category carrier agent st p st' name :
  processPolicy Date_parse row user account category carrier agent st = (Normal p, st') ->
  last (log st') = Some (Create Policy) ->
  name = "primary" \/ name = "hasActive" ->
  (exists before, policies (db st') = before ++ [p] /\
                  policies (db st) `prefix_of` before) /\
  fields p !! name = Some (VBool (bool_decide (row !! name = Some "true"))) /\
  (fields p !! name = Some (VBool true) <-> row !! name = Some "true") /\
  (row !! name = Some "TRUE" \/ row !! name = None -> fields p !! name = Some (VBool false)).
Proof.
  intros H%resolve_cases Hlast Hname.
  destruct (Resolves_stored _ _ _ _ _ _ H Hlast) as (s & Hi & He & Hc).
  split; [exact (stored_after Policy st p st' s He Hc)|].
  assert (Hf : fields p !! name = Some (VBool (strict_eq_str (field row name) "true"))).
  { destruct Hname as [->| ->].
    - eapply insert_field_given; [exact Hi| |reflexivity|done]. simpl. tauto.
    - eapply insert_field_given; [exact Hi| |reflexivity|done]. simpl. tauto. }
  assert (Heq : strict_eq_str (field row name) "true" = bool_decide (row !! name = Some "true")).
  { unfold field. destruct (row !! name) as [text|]; simpl; [|done].
    destruct (String.eqb_spec text "true") as [->|Hne].
    - by rewrite bool_decide_eq_true_2.
    - rewrite bool_decide_eq_false_2; [done|]. congruence. }
  rewrite Hf, Heq. split; [done|]. split.
  - split.
    + intros [= Hb]. by apply bool_decide_eq_true in Hb.
    + intros Ht. by rewrite bool_decide_eq_true_2.
  - intros [E|E]; rewrite E; reflexivity.
Qed.

End Fields.

(** ** The claims on concrete runs *)

(** Two rows with the policy number [P-100]: the second leaves the one
    policy of the first. *)
Lemma same_policy_number_is_skipped_witness :
  others Sample.fresh = [] /\
  policies (db (Sample.run_row Sample.same_number (Sample.run_rows [Sample.row] Sample.fresh).2).2)
    = policies (db (Sample.run_rows [Sample.row] Sample.fresh).2).
Proof.
  split; [reflexivity|].
  refine (proj1 (proj2 (same_policy_number_is_skipped Engine.Date_parse
            [] Sample.row [] Sample.same_number Sample.fresh
            (Sample.run_rows [Sample.row] Sample.fresh).2
            (Sample.run_row Sample.same_number (Sample.run_rows [Sample.row] Sample.fresh).2).1
            (Sample.run_row Sample.same_number (Sample.run_rows [Sample.row] Sample.fresh).2).2
            _ _ _ _))); vm_compute; reflexivity.
Defined.



(** The written premium of [row] is empty. *)
Lemma premiums_default_to_zero_witness :
  (exists before,
     policies (db (Sample.run_policy Sample.row).2)
       = before ++ [Sample.doc_of (Sample.run_policy Sample.row).1] /\
     policies (db Sample.fresh) `prefix_of` before) /\
  fields (Sample.doc_of (Sample.run_policy Sample.row).1) !! "premium_amount_written"
    = Some (VNum zero).
Proof.
  refine ((fun H => conj (proj1 H)
                      (proj1 (proj2 (proj2 (proj2 (proj2 H)))) (or_intror eq_refl)))
            (premiums_default_to_zero Engine.Date_parse Sample.row
               Sample.user Sample.account Sample.category Sample.carrier Sample.agent
               Sample.fresh (Sample.doc_of (Sample.run_policy Sample.row).1)
               (Sample.run_policy Sample.row).2 "premium_amount_written" _ _ _)).
  - vm_compute; reflexivity.
  - vm_compute; reflexivity.
  - right; reflexivity.
Defined.

(** C6 fails for a text that only starts like a number: [12abc] is no
    decimal number, and the policy is stored with the premium 12, not 0;
    [1,180.83] is stored as 1. A number beyond the doubles is stored as
    [Infinity], one below them as 0, and [1180.83] as the double nearest to
    it. *)
Lemma premium_that_only_starts_like_a_number :
  Cases.trailing_text !! "premium_amount" = Some "12abc" /\
  decimal "12abc" = None /\
  Cases.premium_of Cases.trailing_text = Some (VNum (Finite 12)) /\
  decimal "1,180.83" = None /\
  Cases.premium_of Cases.grouped = Some (VNum (Finite 1)) /\
  Cases.premium_of Cases.huge = Some (VNum (Infinity false)) /\
  Cases.premium_of Cases.tiny = Some (VNum zero) /\
  decimal "1180.83" = Some (118083 # 100) /\
  Cases.premium_of Sample.row = Some (VNum (Finite (649168157713367 # 549755813888))).
Proof. vm_compute. repeat split. Qed.

(** [row] has [TRUE] for [primary]. *)
Lemma flags_true_only_for_true_witness :
  (exists before,
     policies (db (Sample.run_policy Sample.row).2)
       = before ++ [Sample.doc_of (Sample.run_policy Sample.row).1] /\
     policies (db Sample.fresh) `prefix_of` before) /\
  fields (Sample.doc_of (Sample.run_policy Sample.row).1) !! "primary" = Some (VBool false).
Proof.
  refine ((fun H => conj (proj1 H) (proj2 (proj2 (proj2 H)) (or_introl _)))
            (flags_true_only_for_true Engine.Date_parse Sample.row
               Sample.user Sample.account Sample.category Sample.carrier Sample.agent
               Sample.fresh (Sample.doc_of (Sample.run_policy Sample.row).1)
               (Sample.run_policy Sample.row).2 "primary" _ _ _)).
  - vm_compute; reflexivity.
  - vm_compute; reflexivity.
  - vm_compute; reflexivity.
  - left; reflexivity.
Defined.


(** C5 at the policy mode [0]: [parseInt] reads the integer 0, and the
    policy that is created holds [null] for [policy_mode], where the policy
    of the same row with the mode [12] holds 12. *)
Theorem policy_mode_zero_is_stored_as_null :
  Sample.mode_zero !! "policy_mode" = Some "0" /\
  parseInt (Some "0") = Finite 0 /\
  last (log (Sample.run_policy Sample.mode_zero).2) = Some (Create Policy) /\
  get (Sample.doc_of (Sample.run_policy Sample.mode_zero).1) "policy_mode" = VNull /\
  get (Sample.doc_of (Sample.run_policy Sample.row).1) "policy_mode" = VNum (Finite 12).
Proof. vm_compute. repeat split. Qed.



(** A batch whose second row has no agent. *)
Lemma row_failure_is_reported_as_success_witness :
  upload (Some "uploads/batch.csv")
    (processCSV (events (Sample.run_worker (Ends [Sample.row; Sample.no_agent]) Sample.fresh)))
    None
  = Some (mkResponse 200
            (Processed "File processed successfully"
               (ErrorMessage (message (ValidationError Agent [("name", IsRequired)]))))).
Proof.
  refine (proj1 (proj2 (proj2 (proj2 (row_failure_is_reported_as_success Engine.Date_parse
            [Sample.row; Sample.no_agent] Sample.fresh
            (ValidationError Agent [("name", IsRequired)])
            (Sample.run_rows [Sample.row; Sample.no_agent] Sample.fresh).2 _)))) _).
  vm_compute; reflexivity.
Defined.

(** * Further properties *)

Section More.

Variable Date_parse : string -> option Z.

Implicit Types (row : Row) (rows : list Row) (st : State).

Ltac block H Hb :=
  apply bind_inv in H as [(? & ? & Hb & H)|(? & Hb & ?)];
  [apply resolve_cases in Hb | apply resolve_cases in Hb].

(** ** Nothing is removed, nothing is rolled back *)

(** X1. Whatever the stream does and whoever else writes, every
    collection as it was before the run is the beginning of the collection
    after it: the worker removes and changes no stored document. In
    particular, when a batch fails after some of its rows have gone through,
    everything these rows have created is still there. *)
Theorem run_keeps_what_is_stored input st :
  extends (db st) (db (final (worker Date_parse input st))) /\
  (forall rows1 rows2 st1,
     processRows Date_parse rows1 st = (Normal tt, st1) ->
     extends (db st1) (db (processRows Date_parse (rows1 ++ rows2) st).2)).
Proof.
  split.
  - unfold worker, processFile. destruct input as [data|data [] e]; simpl; [|reflexivity..].
    destruct (processRows Date_parse (collect data) st) as [[[]|e] st'] eqn:H; simpl;
      by eapply processRows_extends.
  - intros rows1 rows2 st1 H1. rewrite processRows_app.
    rewrite (bind_normal _ _ _ _ _ H1).
    destruct (processRows Date_parse rows2 st1) as [c st'] eqn:H2. simpl.
    by eapply processRows_extends.
Qed.

(** ** Unique paths *)

Lemma duplicate_None ps docs fs p d :
  duplicate ps docs fs = None ->
  p ∈ ps -> unique p = true -> d ∈ docs ->
  get d (path_name p) <> default VNull (fs !! path_name p).
Proof.
  unfold duplicate. intros Hd Hp Hu Hin Heq.
  set (taken := fun p => (unique p && existsb (fun d =>
         bool_decide (get d (path_name p) = default VNull (fs !! path_name p))) docs
       = true)%bool) in *.
  assert (Hf : p ∈ filter taken ps).
  { apply list_elem_of_filter. split; [|done]. unfold taken. rewrite Hu. simpl.
    apply existsb_exists. exists d. split; [by apply list_elem_of_In|].
    by apply bool_decide_eq_true. }
  destruct (filter taken ps); [inversion Hf | discriminate].
Qed.

Lemma unique_kept_insert k obj s d s' :
  insert k obj s = inr (d, s') -> unique_kept s -> unique_kept s'.
Proof.
  intros (fs & _ & Hd & -> & ->)%insert_inv Hu k' p Hp Hup.
  rewrite coll_push. case_decide; subst; [|by apply Hu].
  rewrite map_app. simpl. apply NoDup_app. split; [by apply Hu|]. split; [|apply NoDup_singleton].
  intros v Hv ->%list_elem_of_singleton.
  apply list_elem_of_In, in_map_iff in Hv as (d & Hget & Hin%list_elem_of_In).
  by eapply (duplicate_None _ _ _ p d Hd).
Qed.

Lemma unique_kept_commits ws s : unique_kept s -> unique_kept (fold_left commit ws s).
Proof.
  revert s. induction ws as [|w ws IH]; intros s Hu; simpl; [done|].
  apply IH. unfold commit. destruct (insert _ _ _) as [e|[d s']] eqn:Hi; [done|].
  by eapply unique_kept_insert.
Qed.

Lemma unique_kept_arrive op st : unique_kept (db st) -> unique_kept (db (arrive op st)).
Proof. unfold arrive. destruct (others st); simpl; [done|]. apply unique_kept_commits. Qed.

#[local] Instance keeps_preorder P : PreOrder (keeps P).
Proof. split; [intros st H; exact H | intros a b c H1 H2 H; apply H2, H1, H]. Qed.

Lemma unique_kept_block : block_invariant (keeps unique_kept).
Proof.
  intros k cond obj st c st' [d H|d s' st2 H Hi|e st2 H Hi] Hu; simpl.
  - by apply unique_kept_arrive.
  - eapply unique_kept_insert; [exact Hi|]. by apply unique_kept_arrive, unique_kept_arrive.
  - by apply unique_kept_arrive, unique_kept_arrive.
Qed.

Lemma keeps_worker P input st :
  block_invariant (keeps P) -> P (db st) -> P (db (final (worker Date_parse input st))).
Proof.
  intros Hb HP. unfold worker, processFile.
  destruct input as [data|data [] e]; simpl; [|done..].
  destruct (processRows Date_parse (collect data) st) as [[[]|e] st'] eqn:H; simpl;
    by apply (respects_processRows Date_parse (keeps P) _ Hb _ _ _ H).
Qed.

(** X2. With [unique: true] on the policy number and on the names of
    categories and carriers, a run never leaves two policies with the same
    number, nor two categories or two carriers with the same name, in a
    store that had none, whatever other writers create meanwhile and
    however the run ends. *)
Theorem unique_paths_stay_unique input st :
  unique_kept (db st) ->
  let s' := db (final (worker Date_parse input st)) in
  NoDup (map (fun d => get d "policy_number") (policies s')) /\
  NoDup (map (fun d => get d "name") (categories s')) /\
  NoDup (map (fun d => get d "name") (carriers s')).
Proof.
  intros Hu. pose proof (keeps_worker unique_kept input st unique_kept_block Hu) as H.
  split; [|split].
  - apply (H Policy (mkPath "policy_number" TString true true None)); [|done].
    apply (bool_decide_unpack _). vm_compute. exact I.
  - apply (H Category (mkPath "name" TString true true None)); [by left|done].
  - apply (H Carrier (mkPath "name" TString true true None)); [by left|done].
Qed.

(** ** Required cells *)

Lemma build_required obj ps fs p :
  build obj ps = ([], fs) -> NoDup (map path_name ps) -> p ∈ ps ->
  required p = true ->
  present (default VNull (fs !! path_name p)) = true.
Proof.
  intros Hb Hnd Hp Hr.
  destruct (build_lookup _ _ _ _ Hb Hnd Hp) as (ov & Hbp & ->).
  unfold build_path in Hbp. rewrite Hr in Hbp. simpl in Hbp.
  destruct (prop obj (path_name p)) eqn:Hg;
    try (destruct (cast (path_type p) _) as [v'|]; [|discriminate]);
    simpl in Hbp;
    match type of Hbp with
    | (if negb (present ?x) then _ else _) = _ =>
        destruct (present x) eqn:Hpr; simpl in Hbp; [|discriminate];
        injection Hbp as <-
    end.
  - by destruct (path_default p).
  - done.
  - done.
  - done.
  - done.
  - done.
  - done.
Qed.

Lemma valid_insert k obj s d s' : insert k obj s = inr (d, s') -> valid s -> valid s'.
Proof.
  intros (fs & Hb & _ & -> & ->)%insert_inv Hv k' d' p Hd Hp Hr.
  rewrite coll_push in Hd. case_decide; subst; [|by eapply Hv].
  apply elem_of_app in Hd as [Hd| ->%list_elem_of_singleton]; [by eapply Hv|].
  unfold get. simpl. by eapply build_required; [exact Hb|apply schema_NoDup|..].
Qed.

Lemma valid_commits ws s : valid s -> valid (fold_left commit ws s).
Proof.
  revert s. induction ws as [|w ws IH]; intros s Hu; simpl; [done|].
  apply IH. unfold commit. destruct (insert _ _ _) as [e|[d s']] eqn:Hi; [done|].
  by eapply valid_insert.
Qed.

Lemma valid_arrive op st : valid (db st) -> valid (db (arrive op st)).
Proof. unfold arrive. destruct (others st); simpl; [done|]. apply valid_commits. Qed.

Lemma valid_block : block_invariant (keeps valid).
Proof.
  intros k cond obj st c st' [d H|d s' st2 H Hi|e st2 H Hi] Hu; simpl.
  - by apply valid_arrive.
  - eapply valid_insert; [exact Hi|]. by apply valid_arrive, valid_arrive.
  - by apply valid_arrive, valid_arrive.
Qed.

Lemma valid_empty : valid empty_store.
Proof. intros k d p Hd. destruct k; inversion Hd. Qed.

Lemma present_field row cell :
  present (query_value (field row cell)) = true ->
  exists text, row !! cell = Some text /\ text <> "".
Proof.
  unfold field. destruct (row !! cell) as [text|]; simpl; [|discriminate].
  intros H. exists text. split; [done|]. intros ->. discriminate.
Qed.

(** The document a block ends with, in a store whose documents are valid:
    the value looked up at a required path is a text that is not empty. *)
Lemma Resolves_required k cond obj st d st' row cell name :
  agrees k cond obj ->
  Resolves k cond obj st (Normal d) st' ->
  valid (db st') ->
  (name, field row cell) ∈ cond ->
  mkPath name TString true false None ∈ schema k \/
  mkPath name TString true true None ∈ schema k ->
  exists text, row !! cell = Some text /\ text <> "".
Proof.
  intros Hag Hr Hv Hc Hp. destruct (Resolves_elem _ _ _ _ _ _ Hag Hr) as [Hd Hm].
  apply present_field.
  unfold matches in Hm. rewrite forallb_forall in Hm.
  apply list_elem_of_In in Hc. specialize (Hm _ Hc). simpl in Hm.
  apply bool_decide_eq_true in Hm. rewrite <- Hm.
  destruct Hp as [Hp|Hp]; by apply (Hv k d _ Hd Hp).
Qed.

Lemma processRow_required row st st' :
  valid (db st) ->
  processRow Date_parse row st = (Normal tt, st') ->
  valid (db st') /\
  forall cell, cell ∈ required_cells -> exists text, row !! cell = Some text /\ text <> "".
Proof.
  intros V0 H. rewrite processRow_blocks in H.
  block H H1; [|discriminate]. block H H2; [|discriminate].
  block H H3; [|discriminate]. block H H4; [|discriminate].
  block H H5; [|discriminate]. block H H6; [|discriminate].
  inversion H; subst; clear H.
  pose proof (valid_block _ _ _ _ _ _ H1 V0) as V1.
  pose proof (valid_block _ _ _ _ _ _ H2 V1) as V2.
  pose proof (valid_block _ _ _ _ _ _ H3 V2) as V3.
  pose proof (valid_block _ _ _ _ _ _ H4 V3) as V4.
  pose proof (valid_block _ _ _ _ _ _ H5 V4) as V5.
  pose proof (valid_block _ _ _ _ _ _ H6 V5) as V6.
  split; [done|]. intros cell Hcell. unfold required_cells in Hcell.
  repeat (apply elem_of_cons in Hcell as [->|Hcell]); [..|inversion Hcell].
  - eapply (Resolves_required Agent _ _ _ _ _ row "agent" "name");
      [apply agrees_agent|exact H1|exact V1|by left|left; by left].
  - eapply (Resolves_required User _ _ _ _ _ row "firstname" "firstname");
      [apply agrees_user|exact H2|exact V2|by left|left; by left].
  - eapply (Resolves_required Account _ _ _ _ _ row "account_name" "name");
      [apply agrees_account|exact H3|exact V3|by left|left; by left].
  - eapply (Resolves_required Category _ _ _ _ _ row "category_name" "name");
      [apply agrees_category|exact H4|exact V4|by left|right; by left].
  - eapply (Resolves_required Carrier _ _ _ _ _ row "company_name" "name");
      [apply agrees_carrier|exact H5|exact V5|by left|right; by left].
  - eapply (Resolves_required Policy _ _ _ _ _ row "policy_number" "policy_number");
      [apply agrees_policy|exact H6|exact V6|by left|right; by left].
Qed.

(** X3. In a store whose documents hold their required paths, a batch
    whose statistics are posted had, in every row, a text that is not empty
    in each of the columns agent, firstname, account_name, category_name,
    company_name and policy_number: one row with one of them missing or
    empty makes the whole run fail, whoever else writes meanwhile. *)
Theorem posted_stats_need_the_required_cells data st s :
  valid (db st) ->
  posted (worker Date_parse (Ends data) st) = [StatsMessage s] ->
  forall row cell, row ∈ data -> cell ∈ required_cells ->
    exists text, row !! cell = Some text /\ text <> "".
Proof.
  intros V Hp. unfold worker, processFile in Hp. rewrite collect_all in Hp.
  destruct (processRows Date_parse data st) as [[[]|e] st'] eqn:H; simpl in Hp; [|discriminate].
  clear Hp. revert st V H. induction data as [|r data IH]; intros st V H row cell Hrow Hcell.
  - inversion Hrow.
  - simpl in H. apply bind_inv in H as [([] & st1 & H1 & H2)|(e & _ & [=])].
    destruct (processRow_required _ _ _ V H1) as [V1 Hcells].
    apply elem_of_cons in Hrow as [->|Hrow]; [by apply Hcells|by eapply IH].
Qed.

(** ** Counters and rows *)

Lemma creates_app k ops1 ops2 : creates k (ops1 ++ ops2) = (creates k ops1 + creates k ops2)%nat.
Proof. unfold creates. by rewrite filter_app, length_app. Qed.

Lemma creates_issued k made ks :
  (creates k (issued made ks) <= length (filter (fun k' => k' = k) ks))%nat.
Proof.
  induction ks as [|k' ks IH]; simpl; [done|].
  change (Find k' :: (if made k' then [Create k'] else []) ++ issued made ks)
    with (([Find k'] ++ (if made k' then [Create k'] else [])) ++ issued made ks).
  rewrite !creates_app. rewrite filter_cons.
  assert (Hone : (creates k [Find k'] + creates k (if made k' then [Create k'] else [])
                  <= if decide (k' = k) then 1 else 0)%nat).
  { unfold creates. destruct (made k'); simpl; rewrite ?filter_cons, ?filter_nil;
      repeat case_decide; simpl; try lia; congruence. }
  case_decide; simpl; lia.
Qed.

Lemma creates_row k made n : (creates k (issued made (take n order)) <= 1)%nat.
Proof.
  etrans; [apply creates_issued|].
  assert (H : (length (filter (fun k' => k' = k) (take n order ++ drop n order)) <= 1)%nat).
  { rewrite take_drop. destruct k; vm_compute; lia. }
  rewrite filter_app, length_app in H. lia.
Qed.

#[local] Instance tallied_preorder : PreOrder tallied.
Proof.
  split.
  - intros st k. lia.
  - intros a b c H1 H2 k. specialize (H1 k). specialize (H2 k). lia.
Qed.

Lemma tallied_block : block_invariant tallied.
Proof.
  intros k cond obj st c st' [d H|d s' st2 H Hi|e st2 H Hi] k'; try subst st2; simpl;
    rewrite ?arrive_log, ?arrive_stats, ?creates_app, ?count_incr;
    unfold creates; simpl; rewrite ?filter_cons, ?filter_nil;
    repeat case_decide; subst; simpl; try lia; congruence.
Qed.

Lemma processRows_creates rows st c st' k :
  processRows Date_parse rows st = (c, st') ->
  (creates k (log st') <= creates k (log st) + length rows)%nat.
Proof.
  revert st. induction rows as [|row rows IH]; intros st H; simpl in H.
  - inversion H; subst. simpl. lia.
  - assert (Hrow : exists c1 st1, processRow Date_parse row st = (c1, st1) /\
        (processRows Date_parse rows st1 = (c, st') \/ st1 = st')).
    { apply bind_inv in H as [([] & st1 & H1 & H2)|(e & H1 & ->)]; eauto 10. }
    destruct Hrow as (c1 & st1 & H1 & Hrest).
    destruct (processRow_log _ _ _ _ _ H1) as (n & made & Hlog & _).
    assert (H1k : (creates k (log st1) <= creates k (log st) + 1)%nat).
    { rewrite Hlog, creates_app. pose proof (creates_row k made n). lia. }
    destruct Hrest as [H2| ->]; simpl; [|lia].
    specialize (IH _ H2). lia.
Qed.

(** X4. The statistics a run posts count, for each kind, at most one
    creation per row of the batch on top of what the counter was, whoever
    else writes meanwhile. *)
Theorem counters_bounded_by_rows data st s k :
  posted (worker Date_parse (Ends data) st) = [StatsMessage s] ->
  (Stats.count s k <= Stats.count (stats st) k + length data)%nat.
Proof.
  intros Hp. unfold worker, processFile in Hp. rewrite collect_all in Hp.
  destruct (processRows Date_parse data st) as [[[]|e] st'] eqn:H; simpl in Hp; [|discriminate].
  injection Hp as <-.
  pose proof (respects_processRows Date_parse tallied data tallied_block _ _ _ H k) as Ht.
  pose proof (processRows_creates _ _ _ _ k H). lia.
Qed.

(** ** Find before create: no second document with the same key *)

Lemma proper_agent row : proper Agent (agent_cond row) (agent_fields row).
Proof. split; [apply agrees_agent|reflexivity]. Qed.

Lemma proper_user row : proper User (user_cond row) (user_fields Date_parse row).
Proof. split; [apply agrees_user|reflexivity]. Qed.

Lemma proper_account row user : proper Account (account_cond row user) (account_fields row user).
Proof. split; [apply agrees_account|reflexivity]. Qed.

Lemma proper_category row : proper Category (category_cond row) (category_fields row).
Proof. split; [apply agrees_category|reflexivity]. Qed.

Lemma proper_carrier row : proper Carrier (carrier_cond row) (carrier_fields row).
Proof. split; [apply agrees_carrier|reflexivity]. Qed.

Lemma proper_policy row u a c r g :
  proper Policy (policy_cond row) (policy_fields Date_parse row u a c r g).
Proof. split; [apply agrees_policy|reflexivity]. Qed.

Lemma respects_program_row R `{!PreOrder R} row :
  program_invariant R -> respects R (processRow Date_parse row).
Proof.
  intros HR. rewrite processRow_blocks.
  apply respects_bind; [apply _| |intros agent].
  { intros st c st' H. eapply HR; [apply proper_agent|by apply resolve_cases]. }
  apply respects_bind; [apply _| |intros user].
  { intros st c st' H. eapply HR; [apply proper_user|by apply resolve_cases]. }
  apply respects_bind; [apply _| |intros account].
  { intros st c st' H. eapply HR; [apply proper_account|by apply resolve_cases]. }
  apply respects_bind; [apply _| |intros category].
  { intros st c st' H. eapply HR; [apply proper_category|by apply resolve_cases]. }
  apply respects_bind; [apply _| |intros carrier].
  { intros st c st' H. eapply HR; [apply proper_carrier|by apply resolve_cases]. }
  apply respects_bind; [apply _| |intros policy].
  { intros st c st' H. eapply HR; [apply proper_policy|by apply resolve_cases]. }
  apply respects_ret, _.
Qed.

Lemma respects_program_rows R `{!PreOrder R} rows :
  program_invariant R -> respects R (processRows Date_parse rows).
Proof.
  intros HR. induction rows as [|row rows IH]; simpl.
  - apply respects_ret, _.
  - apply respects_bind; [apply _ | by apply respects_program_row | intros _; apply IH].
Qed.

(** A document meets a condition on the paths of the key exactly when its
    key is the one the condition asks for. *)
Lemma matches_key_of (cond : list (string * Value)) d :
  matches cond d = true <->
  map (get d) (map fst cond) = map (fun c => query_value c.2) cond.
Proof.
  unfold matches. induction cond as [|[name v] cond IH]; simpl; [done|].
  rewrite andb_true_iff, bool_decide_eq_true, IH. split.
  - intros [-> ->]. done.
  - intros [= H1 H2]. done.
Qed.

#[local] Instance distinct_alone_preorder : PreOrder distinct_alone.
Proof.
  split.
  - intros st Ha Hd. done.
  - intros a b c H1 H2 Ha Hd. destruct (H1 Ha Hd) as [Hb Hd']. by apply H2.
Qed.

Lemma distinct_alone_program : program_invariant distinct_alone.
Proof.
  intros k cond obj st c st' [Hag Hkey] Hr Ha Hd.
  destruct (Resolves_alone _ _ _ _ _ _ Ha Hr) as [Ha' Hc]. split; [done|].
  destruct Hc as [(d & _ & _ & -> & _)|[(d & Hl & Hi & _ & _)|(e & _ & _ & _ & -> & _)]];
    [done| |done].
  pose proof (created_matches _ _ _ _ _ _ Hag Hi) as Hm.
  apply insert_inv in Hi as (fs & _ & _ & _ & ->).
  intros k'. rewrite coll_push. case_decide; subst; [|apply Hd].
  rewrite map_app. simpl. apply NoDup_app. split; [apply Hd|]. split; [|apply NoDup_singleton].
  intros key Hin ->%list_elem_of_singleton.
  apply list_elem_of_In, in_map_iff in Hin as (d0 & Hk0 & Hin).
  unfold lookup in Hl. pose proof (find_none _ _ Hl _ Hin) as Hno.
  assert (Hyes : matches cond d0 = true).
  { apply matches_key_of. apply matches_key_of in Hm.
    rewrite Hkey in *. unfold key_of in Hk0. congruence. }
  congruence.
Qed.

Lemma distinct_empty : distinct empty_store.
Proof. intros k. destruct k; constructor. Qed.

(** X5. A worker that has the store for itself creates a document only
    after its lookup has found none: in a store where no two agents share a
    name, no two users a first name and email, no two accounts a name and
    user, no two categories or carriers a name and no two policies a number,
    this is still so after the run, however it ends. *)
Theorem keys_stay_distinct input st :
  others st = [] ->
  distinct (db st) ->
  distinct (db (final (worker Date_parse input st))).
Proof.
  intros Ha Hd. unfold worker, processFile.
  destruct input as [data|data [] e]; simpl; [|done..].
  destruct (processRows Date_parse (collect data) st) as [[[]|e] st'] eqn:H; simpl;
    by apply (respects_program_rows distinct_alone _ distinct_alone_program _ _ _ H).
Qed.

(** ** References that resolve *)

Lemma resolves_in_extends s s' d path k :
  extends s s' -> resolves_in s d path k -> resolves_in s' d path k.
Proof. intros He (t & Ht & Hg). exists t. split; [by eapply extends_elem|done]. Qed.

Lemma linked_push k d s :
  linked s ->
  (k = Policy -> forall path k', (path, k') ∈ policy_refs -> resolves_in s d path k') ->
  (k = Account -> resolves_in s d "user_id" User) ->
  linked (push k d s).
Proof.
  intros [Hp Ha] Hpol Hacc. pose proof (extends_push k d s) as He. split.
  - intros p Hin path k' Href. change (p ∈ coll (push k d s) Policy) in Hin.
    rewrite coll_push in Hin. eapply resolves_in_extends; [exact He|].
    case_decide as Hk; [subst k|by apply Hp].
    apply elem_of_app in Hin as [Hin| ->%list_elem_of_singleton]; [by apply Hp|].
    by apply Hpol.
  - intros a Hin. change (a ∈ coll (push k d s) Account) in Hin.
    rewrite coll_push in Hin. eapply resolves_in_extends; [exact He|].
    case_decide as Hk; [subst k|by apply Ha].
    apply elem_of_app in Hin as [Hin| ->%list_elem_of_singleton]; [by apply Ha|].
    by apply Hacc.
Qed.

(** A block of a worker alone keeps the references resolved, if the
    document it may create refers to documents that are in the store. *)
Lemma Resolves_linked k cond obj st c st' :
  others st = [] -> linked (db st) ->
  (forall d s', insert k obj (db st) = inr (d, s') ->
     (k = Policy -> forall path k', (path, k') ∈ policy_refs ->
                    resolves_in (db st) d path k') /\
     (k = Account -> resolves_in (db st) d "user_id" User)) ->
  Resolves k cond obj st c st' ->
  others st' = [] /\ linked (db st').
Proof.
  intros Ha Hl Hside Hr. destruct (Resolves_alone _ _ _ _ _ _ Ha Hr) as [Ha' Hc].
  split; [done|].
  destruct Hc as [(d & _ & _ & -> & _)|[(d & _ & Hi & _ & _)|(e & _ & _ & _ & -> & _)]];
    [done| |done].
  destruct (Hside _ _ Hi) as [Hpol Hacc].
  apply insert_inv in Hi as (fs & _ & _ & _ & ->). by apply linked_push.
Qed.

Lemma no_refs k obj s :
  k <> Policy -> k <> Account ->
  forall d s', insert k obj s = inr (d, s') ->
    (k = Policy -> forall path k', (path, k') ∈ policy_refs -> resolves_in s d path k') /\
    (k = Account -> resolves_in s d "user_id" User).
Proof. intros H1 H2 d s' _. split; intros E; congruence. Qed.

Lemma policy_refs_paths path k :
  (path, k) ∈ policy_refs -> In path (map path_name (schema Policy)).
Proof.
  unfold policy_refs. intros Hin.
  repeat (apply elem_of_cons in Hin as [[= -> ->]|Hin]); [..|inversion Hin]; simpl; tauto.
Qed.

Lemma processRow_linked row st c st' :
  others st = [] -> linked (db st) ->
  processRow Date_parse row st = (c, st') ->
  others st' = [] /\ linked (db st').
Proof.
  intros A0 L0 H. rewrite processRow_blocks in H.
  block H H1;
    (destruct (Resolves_linked _ _ _ _ _ _ A0 L0 (no_refs Agent _ _ ltac:(discriminate) ltac:(discriminate)) H1) as [A1 L1]);
    [|by subst].
  block H H2;
    (destruct (Resolves_linked _ _ _ _ _ _ A1 L1 (no_refs User _ _ ltac:(discriminate) ltac:(discriminate)) H2) as [A2 L2]);
    [|by subst].
  rename x1 into user, x2 into st2.
  pose proof (Resolves_elem _ _ _ _ _ _ (agrees_user Date_parse row) H2) as [I2 _].
  assert (Hacc : forall d s',
    insert Account (account_fields row user) (db st2) = inr (d, s') ->
    (Account = Policy -> forall path k', (path, k') ∈ policy_refs ->
                         resolves_in (db st2) d path k') /\
    (Account = Account -> resolves_in (db st2) d "user_id" User)).
  { intros d s' Hi. split; [discriminate|]. intros _. exists user. split; [done|].
    eapply insert_get_given; [exact Hi| |reflexivity|done]. simpl. tauto. }
  block H H3;
    (destruct (Resolves_linked _ _ _ _ _ _ A2 L2 Hacc H3) as [A3 L3]);
    [|by subst].
  block H H4;
    (destruct (Resolves_linked _ _ _ _ _ _ A3 L3 (no_refs Category _ _ ltac:(discriminate) ltac:(discriminate)) H4) as [A4 L4]);
    [|by subst].
  block H H5;
    (destruct (Resolves_linked _ _ _ _ _ _ A4 L4 (no_refs Carrier _ _ ltac:(discriminate) ltac:(discriminate)) H5) as [A5 L5]);
    [|by subst].
  rename x into agent, x1 into account, x3 into category, x5 into carrier.
  rename x0 into st1, x2 into st3, x4 into st4, x6 into st5.
  pose proof (Resolves_extends _ _ _ _ _ _ H2) as E2.
  pose proof (Resolves_extends _ _ _ _ _ _ H3) as E3.
  pose proof (Resolves_extends _ _ _ _ _ _ H4) as E4.
  pose proof (Resolves_extends _ _ _ _ _ _ H5) as E5.
  pose proof (Resolves_elem _ _ _ _ _ _ (agrees_agent row) H1) as [I1 _].
  pose proof (Resolves_elem _ _ _ _ _ _ (agrees_account row user) H3) as [I3 _].
  pose proof (Resolves_elem _ _ _ _ _ _ (agrees_category row) H4) as [I4 _].
  pose proof (Resolves_elem _ _ _ _ _ _ (agrees_carrier row) H5) as [I5 _].
  assert (X1 : agent ∈ coll (db st5) Agent).
  { eapply extends_elem; [|exact I1]. do 3 (etrans; [eassumption|]). exact E5. }
  assert (X2 : user ∈ coll (db st5) User).
  { eapply extends_elem; [|exact I2]. do 2 (etrans; [eassumption|]). exact E5. }
  assert (X3 : account ∈ coll (db st5) Account).
  { eapply extends_elem; [|exact I3]. etrans; [eassumption|]. exact E5. }
  assert (X4 : category ∈ coll (db st5) Category).
  { eapply extends_elem; [|exact I4]. exact E5. }
  assert (Hpol : forall d s',
    insert Policy (policy_fields Date_parse row user account category carrier agent) (db st5)
      = inr (d, s') ->
    (Policy = Policy -> forall path k', (path, k') ∈ policy_refs ->
                        resolves_in (db st5) d path k') /\
    (Policy = Account -> resolves_in (db st5) d "user_id" User)).
  { intros d s' Hi. split; [|discriminate]. intros _ path k' Href.
    pose proof (policy_refs_paths _ _ Href) as Hpath.
    unfold policy_refs in Href.
    repeat (apply elem_of_cons in Href as [[= -> ->]|Href]); [..|inversion Href].
    - exists user. split; [done|]. by eapply insert_get_given; [exact Hi|exact Hpath|reflexivity|].
    - exists account. split; [done|].
      by eapply insert_get_given; [exact Hi|exact Hpath|reflexivity|].
    - exists category. split; [done|].
      by eapply insert_get_given; [exact Hi|exact Hpath|reflexivity|].
    - exists carrier. split; [done|].
      by eapply insert_get_given; [exact Hi|exact Hpath|reflexivity|].
    - exists agent. split; [done|].
      by eapply insert_get_given; [exact Hi|exact Hpath|reflexivity|]. }
  block H H6;
    (destruct (Resolves_linked _ _ _ _ _ _ A5 L5 Hpol H6) as [A6 L6]);
    [|by subst].
  by inversion H; subst.
Qed.

Lemma linked_empty : linked empty_store.
Proof. split; intros d Hd; inversion Hd. Qed.

(** X6. A worker that has the store for itself keeps the references
    resolved: if in the store every policy holds the [_id] of a stored user,
    account, category, carrier and agent, and every account the [_id] of a
    stored user, then this is still so after the run, however it ends. *)
Theorem references_stay_resolved input st :
  others st = [] ->
  linked (db st) ->
  linked (db (final (worker Date_parse input st))).
Proof.
  intros Ha Hl. unfold worker, processFile.
  destruct input as [data|data [] e]; simpl; [|done..].
  rewrite collect_all.
  assert (Hrows : forall rows st c st', others st = [] -> linked (db st) ->
            processRows Date_parse rows st = (c, st') -> linked (db st')).
  { clear. intros rows. induction rows as [|row rows IH]; intros st c st' Ha Hl H; simpl in H.
    - by inversion H; subst.
    - apply bind_inv in H as [([] & st1 & H1 & H2)|(e & H1 & ->)].
      + destruct (processRow_linked _ _ _ _ Ha Hl H1) as [A1 L1]. by eapply IH.
      + by destruct (processRow_linked _ _ _ _ Ha Hl H1). }
  destruct (processRows Date_parse data st) as [[[]|e] st'] eqn:H; simpl; by eapply Hrows.
Qed.

(** ** A batch in two parts *)

Lemma same_store_arrive op st1 st2 :
  same_store st1 st2 -> same_store (arrive op st1) (arrive op st2).
Proof.
  intros [Hd Ho]. unfold same_store, arrive. rewrite Ho, Hd.
  by destruct (others st2).
Qed.

Lemma same_gain_refl a b : same_gain a a b b.
Proof. intros k. lia. Qed.

Lemma same_gain_trans a a' a'' b b' b'' :
  same_gain a a' b b' -> same_gain a' a'' b' b'' -> same_gain a a'' b b''.
Proof. intros H1 H2 k. specialize (H1 k). specialize (H2 k). lia. Qed.

Lemma framed_ret {A} (a : A) : framed (mret a).
Proof. intros st1 st2 H. simpl. split; [done|]. split; [done|]. apply same_gain_refl. Qed.

Lemma framed_bind {A B} (m : M A) (f : A -> M B) :
  framed m -> (forall a, framed (f a)) -> framed (m ≫= f).
Proof.
  intros Hm Hf st1 st2 Hs. destruct (Hm st1 st2 Hs) as (Hc & Hs' & Hg).
  unfold mbind, M_bind.
  destruct (m st1) as [[a|e] r1], (m st2) as [[a'|e'] r2]; simpl in *; try discriminate.
  - injection Hc as <-. destruct (Hf a r1 r2 Hs') as (Hc2 & Hs2 & Hg2).
    split; [done|]. split; [done|]. by eapply same_gain_trans.
  - injection Hc as <-. split; [reflexivity|]. split; [exact Hs'|exact Hg].
Qed.

Lemma framed_findOne k cond : framed (findOne k cond).
Proof.
  intros st1 st2 Hs. unfold findOne. simpl.
  pose proof (same_store_arrive (Find k) _ _ Hs) as Hs'. destruct Hs' as [Hd Ho].
  rewrite Hd. split; [done|]. split; [by split|].
  rewrite !arrive_stats. apply same_gain_refl.
Qed.

Lemma framed_create k obj : framed (create k obj).
Proof.
  intros st1 st2 Hs. unfold create.
  pose proof (same_store_arrive (Create k) _ _ Hs) as [Hd Ho]. rewrite Hd.
  destruct (insert k obj (db (arrive (Create k) st2))) as [e|[d s']]; simpl.
  - split; [done|]. split; [by split|]. rewrite !arrive_stats. apply same_gain_refl.
  - split; [done|]. split; [by split|]. rewrite !arrive_stats. apply same_gain_refl.
Qed.

Lemma framed_count_new k : framed (count_new k).
Proof.
  intros st1 st2 Hs. unfold count_new. simpl. split; [done|]. split; [exact Hs|].
  intros k'. rewrite !count_incr. case_decide; subst; lia.
Qed.

Lemma framed_resolve k cond obj : framed (resolve k cond obj).
Proof.
  unfold resolve. apply framed_bind; [apply framed_findOne|]. intros [d|]; simpl.
  - apply framed_ret.
  - apply framed_bind; [apply framed_create|]. intros d.
    apply framed_bind; [apply framed_count_new|]. intros _. apply framed_ret.
Qed.

Lemma framed_processRow row : framed (processRow Date_parse row).
Proof.
  rewrite processRow_blocks.
  repeat (apply framed_bind; [apply framed_resolve|intros ?]).
  apply framed_ret.
Qed.

Lemma framed_processRows rows : framed (processRows Date_parse rows).
Proof.
  induction rows as [|row rows IH]; simpl; [apply framed_ret|].
  apply framed_bind; [apply framed_processRow|]. intros _. apply IH.
Qed.

(** X7. A worker alone processes a file whose first part goes through.
    Uploading the rest as a second file afterwards, from fresh statistics,
    leaves the same store as uploading the whole file at once; when the
    second upload posts statistics, the whole file posts, for each kind, the
    sum of those of the two parts; when it posts an error, the whole file
    posts the same error. *)
Theorem upload_in_two_parts data1 data2 st s1 :
  others st = [] ->
  posted (worker Date_parse (Ends data1) st) = [StatsMessage s1] ->
  forall trail,
    let first := worker Date_parse (Ends data1) st in
    let second := worker Date_parse (Ends data2)
                    (mkState (db (final first)) [] trail Stats.zero) in
    let whole := worker Date_parse (Ends (data1 ++ data2)) st in
    db (final whole) = db (final second) /\
    (forall s2, posted second = [StatsMessage s2] ->
       exists s, posted whole = [StatsMessage s] /\
         forall k, Stats.count s k = (Stats.count s1 k + Stats.count s2 k)%nat) /\
    (forall t, posted second = [ErrorMessage t] -> posted whole = [ErrorMessage t]).
Proof.
  intros Ha Hp trail. simpl. unfold worker, processFile in *. rewrite !collect_all in *.
  destruct (processRows Date_parse data1 st) as [[[]|e1] st1] eqn:H1; simpl in Hp; [|discriminate].
  injection Hp as <-. simpl.
  rewrite processRows_app, (bind_normal _ _ _ _ _ H1).
  destruct (processRows_counted _ _ _ _ _ H1 Ha) as [A1 _].
  assert (Hs : same_store st1 (mkState (db st1) [] trail Stats.zero)) by (by split).
  destruct (framed_processRows data2 _ _ Hs) as (Hc & [Hd _] & Hg).
  destruct (processRows Date_parse data2 st1) as [c2 r1],
           (processRows Date_parse data2 (mkState (db st1) [] trail Stats.zero)) as [c2' r2].
  simpl in *. subst c2'. destruct c2 as [[]|e]; simpl.
  - split; [done|]. split; [|discriminate]. intros s2 [= <-].
    exists (stats r1). split; [done|]. intros k. specialize (Hg k).
    destruct k; simpl in *; lia.
  - split; [done|]. split; [discriminate|]. by intros t [= <-].
Qed.

(** ** Every upload is answered *)

(** X8. Whatever file is uploaded, whatever the stream and the store do
    and whether or not the file can be deleted afterwards, the handler
    replies: with 400 without a file; with 500 when the file stream failed
    or deleting the file threw; with 200 otherwise, the reply then carrying
    the one message the worker has posted, statistics or error. *)
Theorem every_upload_is_answered file input st unlink :
  exists reply,
    upload file (processCSV (events (worker Date_parse input st))) unlink = Some reply /\
    status reply = upload_status file input unlink /\
    (status reply = 200 ->
     exists m, posted (worker Date_parse input st) = [m] /\
               body reply = Processed "File processed successfully" m).
Proof.
  destruct file as [f|]; [|eexists; split; [reflexivity|]; split; [done|discriminate]].
  unfold worker, processFile.
  destruct input as [data|data [] e]; simpl.
  - destruct (processRows Date_parse (collect data) st) as [[[]|e] st']; simpl;
      destruct unlink; simpl; eexists; (split; [reflexivity|]); (split; [done|]);
      try discriminate; intros _; eauto.
  - eexists; split; [reflexivity|]. split; [by destruct unlink|discriminate].
  - destruct unlink; simpl; eexists; (split; [reflexivity|]); (split; [done|]);
      try discriminate; intros _; eauto.
Qed.

(** X9. The promise of [processCSV] takes the outcome of the first event
    of the worker that is not an exit with code 0: resolved with a message,
    rejected with an error or with the exit code; later events change
    nothing; and it stays pending when there is no such event. *)
Theorem first_event_settles quiet :
  Forall (fun ev => ev = OnExit 0) quiet ->
  processCSV quiet = Pending /\
  forall ev rest, ev <> OnExit 0 ->
    processCSV (quiet ++ ev :: rest) =
      match ev with
      | OnMessage m => Resolved m
      | OnError e => Rejected e
      | OnExit code => Rejected (WorkerStopped code)
      end.
Proof.
  intros Hq. unfold processCSV.
  assert (Hquiet : fold_left settle quiet Pending = Pending).
  { induction Hq as [|ev evs -> _ IH]; simpl; [done|exact IH]. }
  split; [done|]. intros ev rest Hev. rewrite fold_left_app, Hquiet. simpl.
  assert (Hkeep : forall p, p <> Pending -> fold_left settle rest p = p).
  { induction rest as [|r rest IH]; intros p Hp; simpl; [done|].
    destruct p; [done|apply IH; discriminate..]. }
  destruct ev as [m|e|code]; simpl.
  - apply Hkeep. discriminate.
  - apply Hkeep. discriminate.
  - destruct (Z.eqb_spec code 0) as [->|Hne]; [done|]. apply Hkeep. discriminate.
Qed.

(** ** The columns of a row and the paths of the documents *)

Lemma text_column_set k path column row u a c r g s d s' :
  insert k (row_fields Date_parse k row u a c r g) s = inr (d, s') ->
  plain k path = true ->
  prop (object (row_fields Date_parse k row u a c r g)) path = field row column ->
  fields d !! path = VStr <$> row !! column.
Proof.
  intros Hi Hpl Hprop.
  apply plain_elim in Hpl as (ps & Hin & <- & Hdef).
  rewrite (insert_field _ _ _ _ _ _ Hi Hin), Hprop, Hdef.
  unfold field. by destruct (row !! column).
Qed.

(** X10. A document that a block creates is stored, the last of its
    collection, and has each of its text paths set to the text of the column
    the path is filled from, as it is, the empty text included, and left
    unset when the row has no such cell: the name of the agent from
    [agent], of the account from [account_name], of the category from
    [category_name], of the carrier from [company_name], the [applicant_id]
    from [Applicant ID], and so on. Only [agency_id] differs: it is always
    set, to [null] when the cell is missing or empty. *)
Theorem columns_reach_their_paths k row user account category carrier agent s d s' :
  insert k (row_fields Date_parse k row user account category carrier agent) s = inr (d, s') ->
  coll s' k = coll s k ++ [d] /\
  (forall path column, (k, path, column) ∈ text_columns ->
     fields d !! path = VStr <$> row !! column) /\
  (k = Agent ->
     fields d !! "agency_id" =
       Some match row !! "agency_id" with
            | Some text => if String.eqb text "" then VNull else VStr text
            | None => VNull
            end).
Proof.
  intros Hi. split; [by eapply insert_stored|]. split.
  - intros path column Hin. unfold text_columns in Hin.
    repeat (apply elem_of_cons in Hin as [[= -> -> ->]|Hin]); [..|inversion Hin];
      (eapply text_column_set; [exact Hi|reflexivity|reflexivity]).
  - intros ->. simpl in Hi.
    assert (Hin : opt "agency_id" TString ∈ schema Agent) by (right; left).
    pose proof (insert_field _ _ _ _ _ _ Hi Hin) as Hg. simpl in Hg. rewrite Hg.
    change (prop (object (agent_fields row)) "agency_id")
      with (or_else (field row "agency_id") VNull).
    unfold or_else, field. destruct (row !! "agency_id") as [text|]; simpl; [|done].
    by destruct (String.eqb text "").
Qed.

End More.

(** ** Delivering the scheduled posts *)

Module SchedulerFacts.

Import Scheduler.

Implicit Types (p q : Post) (ps pend : list Post) (w : World).

Lemma set_status_ids id s ps : map _id (set_status id s ps) = map _id ps.
Proof.
  unfold set_status. rewrite map_map. apply map_ext. intros p.
  by destruct (Nat.eqb (_id p) id).
Qed.

Lemma save_saves post s w : exists n, saves (save post s w).2 = drop n (saves w).
Proof.
  unfold save. destruct (saves w) as [|[] rest]; simpl; [by exists 0%nat|by exists 1%nat..].
Qed.

(** *** The store never fails *)

Lemma deliver_written pend ps sv :
  Forall (fun b => b = true) sv ->
  posts (deliver pend (mkWorld ps sv)) =
    fold_left (fun acc p => set_status (_id p) "delivered" acc) pend ps /\
  Forall (fun b => b = true) (saves (deliver pend (mkWorld ps sv))).
Proof.
  revert ps sv. induction pend as [|post pend IH]; intros ps sv Hsv; simpl; [done|].
  unfold save. simpl. destruct Hsv as [|b sv -> Hsv]; simpl.
  - apply IH. constructor.
  - by apply IH.
Qed.

Lemma fold_set_status pend ps :
  fold_left (fun acc p => set_status (_id p) "delivered" acc) pend ps =
    map (fun p => if existsb (Nat.eqb (_id p)) (map _id pend)
                  then with_status "delivered" p else p) ps.
Proof.
  revert ps. induction pend as [|post pend IH]; intros ps; simpl.
  - by rewrite map_id.
  - rewrite IH. unfold set_status. rewrite map_map. apply map_ext. intros p.
    destruct (Nat.eqb (_id p) (_id post)); simpl; [|done].
    by destruct (existsb _ _).
Qed.

Lemma due_by_id now ps p :
  NoDup (map _id ps) -> p ∈ ps ->
  existsb (Nat.eqb (_id p)) (map _id (List.filter (due now) ps)) = due now p.
Proof.
  intros Hnd Hp. destruct (due now p) eqn:Hdue.
  - apply existsb_exists. exists (_id p). split; [|apply Nat.eqb_refl].
    apply in_map, filter_In. split; [by apply list_elem_of_In|done].
  - apply not_true_is_false. intros (id & Hin & Heq)%existsb_exists.
    apply Nat.eqb_eq in Heq. apply in_map_iff in Hin as (q & Hq & Hin).
    apply filter_In in Hin as [Hin Hdq]. apply list_elem_of_In in Hin.
    assert (q = p); [|congruence].
    clear -Hnd Hp Hin Hq Heq. induction ps as [|x ps IH]; [inversion Hp|].
    simpl in Hnd. apply NoDup_cons in Hnd as [Hx Hnd].
    apply elem_of_cons in Hp as [->|Hp]; apply elem_of_cons in Hin as [->|Hin]; auto.
    + exfalso. apply Hx. rewrite Heq, <- Hq.
      apply list_elem_of_In, in_map, list_elem_of_In, Hin.
    + exfalso. apply Hx. rewrite Hq, <- Heq.
      apply list_elem_of_In, in_map, list_elem_of_In, Hp.
Qed.

(** The loop over the posts that are due, when every save is written. *)
Lemma deliver_due now ps sv :
  NoDup (map _id ps) ->
  Forall (fun written => written = true) sv ->
  posts (deliver (List.filter (due now) ps) (mkWorld ps sv)) =
    map (fun p => if due now p then with_status "delivered" p else p) ps.
Proof.
  intros Hnd Hsv.
  destruct (deliver_written (List.filter (due now) ps) ps sv Hsv) as [-> _].
  rewrite fold_set_status. apply map_ext_in. intros p Hp.
  by rewrite due_by_id; [|done|apply list_elem_of_In].
Qed.

(** X11. When no save fails, a run at the time [now] marks delivered
    exactly the posts that are pending and scheduled for [now] or earlier,
    and leaves every other post, and the order of the posts, as they are. *)
Theorem delivers_what_is_due now w :
  NoDup (map _id (posts w)) ->
  Forall (fun written => written = true) (saves w) ->
  posts (deliverScheduledPosts now true w) =
    map (fun p => if due now p then with_status "delivered" p else p) (posts w).
Proof.
  intros Hnd Hsv. unfold deliverScheduledPosts. destruct w as [ps sv].
  by apply deliver_due.
Qed.

(** X12. With a store that never fails, running the delivery at a time
    and then again at the same or a later time leaves the posts as one run
    at the later time does: a post is delivered once, and a second run at
    the same time changes nothing. *)
Theorem delivery_runs_compose t1 t2 w :
  NoDup (map _id (posts w)) ->
  Forall (fun written => written = true) (saves w) ->
  t1 <= t2 ->
  posts (deliverScheduledPosts t2 true (deliverScheduledPosts t1 true w)) =
    posts (deliverScheduledPosts t2 true w).
Proof.
  intros Hnd Hsv Ht.
  assert (Hrun : forall t w', NoDup (map _id (posts w')) ->
                   Forall (fun written => written = true) (saves w') ->
                   posts (deliverScheduledPosts t true w') =
                     map (fun p => if due t p then with_status "delivered" p else p)
                       (posts w')).
  { intros t [ps' sv'] Hnd' Hsv'. by apply deliver_due. }
  pose proof (Hrun t1 w Hnd Hsv) as H1.
  assert (Hsv1 : Forall (fun written => written = true)
                   (saves (deliverScheduledPosts t1 true w))).
  { unfold deliverScheduledPosts. destruct w as [ps sv]. simpl in *.
    by apply deliver_written. }
  assert (Hnd1 : NoDup (map _id (posts (deliverScheduledPosts t1 true w)))).
  { rewrite H1, map_map. erewrite map_ext; [exact Hnd|].
    intros p. by destruct (due t1 p). }
  rewrite (Hrun t2 _ Hnd1 Hsv1), H1, (Hrun t2 w Hnd Hsv).
  rewrite map_map. apply map_ext. intros p. unfold due.
  destruct (Z.leb_spec (scheduledDate p) t1), (Z.leb_spec (scheduledDate p) t2),
           (String.eqb (status p) "pending") eqn:Hs; simpl;
    try lia; try done.
  all: unfold due; simpl; rewrite ?Hs; simpl;
       repeat match goal with
              | |- context [?a <=? ?b] => destruct (Z.leb_spec a b); try lia
              end; simpl; try done.
Qed.

(** *** Whatever the store does *)

Lemma outcome_refl now p : outcome now p p.
Proof. by left. Qed.

Lemma outcome_id now p p' : outcome now p p' -> _id p' = _id p.
Proof. intros [->|[_ [->| ->]]]; done. Qed.

(** One save that is written keeps every post an outcome of what it
    was, when the post that is saved was due. *)
Lemma set_status_outcome now ps0 ps q s :
  NoDup (map _id ps0) -> q ∈ ps0 -> due now q = true ->
  s = "delivered" \/ s = "failed" ->
  Forall2 (outcome now) ps0 ps ->
  Forall2 (outcome now) ps0 (set_status (_id q) s ps).
Proof.
  intros Hnd Hq Hdue Hs Hall. unfold set_status.
  assert (Hsame : forall p0, p0 ∈ ps0 -> _id p0 = _id q -> p0 = q).
  { clear -Hnd Hq. intros p0 Hp0 Heq. induction ps0 as [|x ps0 IH]; [inversion Hq|].
    simpl in Hnd. apply NoDup_cons in Hnd as [Hx Hnd].
    apply elem_of_cons in Hp0 as [->|Hp0]; apply elem_of_cons in Hq as [->|Hq]; auto.
    - exfalso. apply Hx. rewrite Heq. apply list_elem_of_In, in_map, list_elem_of_In, Hq.
    - exfalso. apply Hx. rewrite <- Heq. apply list_elem_of_In, in_map, list_elem_of_In, Hp0. }
  assert (Hgen : forall l0 l, Forall (fun p0 => p0 ∈ ps0) l0 ->
            Forall2 (outcome now) l0 l ->
            Forall2 (outcome now) l0
              (map (fun p => if Nat.eqb (_id p) (_id q) then with_status s p else p) l)).
  { intros l0 l Hin Hl. induction Hl as [|p0 p' l0 l Ho Hl IH]; simpl; [constructor|].
    apply Forall_cons in Hin as [Hp0 Hin]. constructor; [|by apply IH].
    destruct (Nat.eqb_spec (_id p') (_id q)) as [Heq|Hne]; [|done].
    rewrite (outcome_id _ _ _ Ho) in Heq. pose proof (Hsame _ Hp0 Heq). subst p0.
    right. split; [done|].
    destruct Ho as [->|[_ [->| ->]]]; destruct Hs as [->| ->]; auto. }
  apply Hgen; [|done]. apply Forall_forall. auto.
Qed.

Lemma deliver_outcome now ps0 pend ps sv :
  NoDup (map _id ps0) ->
  (forall q, q ∈ pend -> q ∈ ps0 /\ due now q = true) ->
  Forall2 (outcome now) ps0 ps ->
  Forall2 (outcome now) ps0 (posts (deliver pend (mkWorld ps sv))).
Proof.
  intros Hnd. revert ps sv. induction pend as [|post pend IH]; intros ps sv Hpend Hall;
    simpl; [done|].
  destruct (Hpend post) as [Hin Hdue]; [by left|].
  assert (Hrest : forall q, q ∈ pend -> q ∈ ps0 /\ due now q = true).
  { intros q Hq. apply Hpend. by right. }
  unfold save. simpl. destruct sv as [|[] sv]; simpl.
  - apply IH; [done|]. eapply set_status_outcome; eauto.
  - apply IH; [done|]. eapply set_status_outcome; eauto.
  - destruct sv as [|[] sv]; simpl.
    + apply IH; [done|]. eapply set_status_outcome; eauto.
    + apply IH; [done|]. eapply set_status_outcome; eauto.
    + done.
Qed.

Lemma run_outcome now found w :
  NoDup (map _id (posts w)) ->
  Forall2 (outcome now) (posts w) (posts (deliverScheduledPosts now found w)).
Proof.
  intros Hnd. unfold deliverScheduledPosts. destruct found.
  - destruct w as [ps sv]. simpl in *. apply deliver_outcome; [done| |].
    + intros q Hq%list_elem_of_In%filter_In. by rewrite list_elem_of_In.
    + apply Forall2_same_length_lookup_2; [done|]. intros i p p' H1 H2.
      rewrite H1 in H2. injection H2 as <-. apply outcome_refl.
  - apply Forall2_same_length_lookup_2; [done|]. intros i p p' H1 H2.
    rewrite H1 in H2. injection H2 as <-. apply outcome_refl.
Qed.

(** X13. Whatever the store does with the saves and with the query, a run
    changes nothing but the status of posts that were pending and due: the
    posts keep their number and order, a post that was not pending or not
    yet due is left exactly as it was, so that a post once delivered or
    failed is never taken up again, and a post that was due is left as it
    was or marked delivered or failed, with its message and dates
    unchanged. *)
Theorem delivery_touches_only_what_is_due now found w :
  NoDup (map _id (posts w)) ->
  Forall2 (outcome now) (posts w) (posts (deliverScheduledPosts now found w)) /\
  (forall i p, posts w !! i = Some p -> due now p = false ->
     posts (deliverScheduledPosts now found w) !! i = Some p).
Proof.
  intros Hnd.
  pose proof (run_outcome now found w Hnd) as Hall.
  split; [done|]. intros i p Hp Hdue.
  destruct (Forall2_lookup_l _ _ _ _ _ Hall Hp) as (p' & Hp' & [->|[Hd _]]); [done|congruence].
Qed.

(** *** A store that does not fail twice in a row *)

Lemma set_status_settled ids id s ps :
  s = "delivered" \/ s = "failed" ->
  (forall p, p ∈ ps -> In (_id p) ids -> settled_status p) ->
  forall p, p ∈ set_status id s ps -> In (_id p) (id :: ids) -> settled_status p.
Proof.
  intros Hs Hq p Hp Hid. unfold set_status in Hp.
  apply list_elem_of_In, in_map_iff in Hp as (p0 & <- & Hp0%list_elem_of_In).
  destruct (Nat.eqb_spec (_id p0) id) as [Heq|Hne].
  - unfold settled_status. simpl. done.
  - destruct Hid as [Hid|Hid]; [congruence|]. by apply Hq.
Qed.

Lemma set_status_keeps ids id s ps :
  s = "delivered" \/ s = "failed" ->
  (forall p, p ∈ ps -> In (_id p) ids -> settled_status p) ->
  forall p, p ∈ set_status id s ps -> In (_id p) ids -> settled_status p.
Proof.
  intros Hs Hq p Hp Hid. eapply set_status_settled; [exact Hs|exact Hq|exact Hp|by right].
Qed.

Lemma deliver_calm pend ps sv ids :
  calm sv = true ->
  (forall p, p ∈ ps -> In (_id p) ids -> settled_status p) ->
  forall p, p ∈ posts (deliver pend (mkWorld ps sv)) ->
    In (_id p) (rev (map _id pend) ++ ids) -> settled_status p.
Proof.
  revert ps sv ids. induction pend as [|post pend IH]; intros ps sv ids Hc Hq; simpl.
  - done.
  - intros p Hp Hid. rewrite <- app_assoc in Hid. simpl in Hid.
    unfold save in Hp. simpl in Hp. destruct sv as [|[] sv]; simpl in Hp.
    + eapply (IH _ [] (_id post :: ids)); [done| |exact Hp|exact Hid].
      apply set_status_settled; auto.
    + eapply (IH _ sv (_id post :: ids)); [done| |exact Hp|exact Hid].
      apply set_status_settled; auto.
    + destruct sv as [|[] sv]; simpl in Hp; [| |discriminate Hc].
      * eapply (IH _ [] (_id post :: ids)); [done| |exact Hp|exact Hid].
        apply set_status_settled; auto.
      * eapply (IH _ sv (_id post :: ids)); [done| |exact Hp|exact Hid].
        apply set_status_settled; auto.
Qed.

(** X14. When the query goes through and the store never throws on two
    saves in a row, no post of the store is both pending and due at [now]
    after the run at [now]: the loop has reached every post it found, and
    each of them has been written as delivered or as failed. *)
Theorem nothing_due_is_left now w :
  NoDup (map _id (posts w)) ->
  calm (saves w) = true ->
  forall p, p ∈ posts (deliverScheduledPosts now true w) -> due now p = false.
Proof.
  intros Hnd Hc p' Hp'.
  pose proof (run_outcome now true w Hnd) as Hall.
  apply list_elem_of_lookup in Hp' as [i Hi].
  destruct (Forall2_lookup_r _ _ _ _ _ Hall Hi) as (p & Hp & Ho).
  destruct (due now p) eqn:Hdue.
  - assert (Hs : settled_status p').
    { unfold deliverScheduledPosts in Hi. destruct w as [ps sv]. simpl in *.
      eapply (deliver_calm (List.filter (due now) ps) ps sv []); [done|by intros ? ? []| |].
      - apply list_elem_of_lookup. eauto.
      - rewrite app_nil_r, <- in_rev, (outcome_id _ _ _ Ho).
        apply in_map, filter_In. split; [|done].
        apply list_elem_of_In, list_elem_of_lookup. eauto. }
    unfold due. destruct Hs as [-> | ->]; simpl; by rewrite andb_false_r.
  - destruct Ho as [->|[Hd _]]; congruence.
Qed.

End SchedulerFacts.

(** ** The further properties on concrete runs *)

Lemma unique_kept_empty : unique_kept empty_store.
Proof. intros k p _ _. destruct k; constructor. Qed.

(** The batch that races for the category [Home]. *)
Lemma unique_paths_stay_unique_witness :
  NoDup (map (fun d => get d "name")
           (categories (db (final (Sample.run_worker (Ends Sample.batch) Sample.racing))))).
Proof.
  exact (proj1 (proj2 (unique_paths_stay_unique Engine.Date_parse (Ends Sample.batch)
                         Sample.racing unique_kept_empty))).
Defined.

(** The second row of the batch has an agent. *)
Lemma posted_stats_need_the_required_cells_witness :
  exists text, Sample.second_policy !! "agent" = Some text /\ text <> "".
Proof.
  refine (posted_stats_need_the_required_cells Engine.Date_parse Sample.batch Sample.fresh
            (Stats.mk 1 1 1 2 1 2) valid_empty _ Sample.second_policy "agent" _ _).
  - vm_compute; reflexivity.
  - right; left.
  - left.
Defined.

(** Two rows create at most two categories. *)
Lemma counters_bounded_by_rows_witness :
  (Stats.count (Stats.mk 1 1 1 2 1 2) Category
   <= Stats.count (stats Sample.fresh) Category + length Sample.batch)%nat.
Proof.
  refine (counters_bounded_by_rows Engine.Date_parse Sample.batch Sample.fresh
            (Stats.mk 1 1 1 2 1 2) Category _).
  vm_compute; reflexivity.
Defined.

Lemma keys_stay_distinct_witness :
  distinct (db (final (Sample.run_worker (Ends Sample.batch) Sample.fresh))).
Proof.
  exact (keys_stay_distinct Engine.Date_parse (Ends Sample.batch) Sample.fresh
           eq_refl distinct_empty).
Defined.

Lemma references_stay_resolved_witness :
  linked (db (final (Sample.run_worker (Ends Sample.batch) Sample.fresh))).
Proof.
  exact (references_stay_resolved Engine.Date_parse (Ends Sample.batch) Sample.fresh
           eq_refl linked_empty).
Defined.

(** The batch, its first row uploaded first and its second row after. *)
Lemma upload_in_two_parts_witness :
  db (final (Sample.run_worker (Ends ([Sample.row] ++ [Sample.second_policy])) Sample.fresh))
  = db (final (Sample.run_worker (Ends [Sample.second_policy])
                 (mkState (db (final (Sample.run_worker (Ends [Sample.row]) Sample.fresh)))
                    [] [] Stats.zero))).
Proof.
  refine (proj1 (upload_in_two_parts Engine.Date_parse [Sample.row] [Sample.second_policy]
                   Sample.fresh (Stats.mk 1 1 1 1 1 1) eq_refl _ [])).
  vm_compute; reflexivity.
Defined.

Lemma first_event_settles_witness :
  processCSV [OnExit 0] = Pending.
Proof.
  refine (proj1 (first_event_settles [OnExit 0] _)).
  repeat constructor.
Defined.

(** The agent of [Sample.row]. *)
Lemma columns_reach_their_paths_witness :
  agents Cases.agent_store = [Cases.agent_doc] /\
  fields Cases.agent_doc !! "name" = Some (VStr "Alex J Lopez").
Proof.
  refine ((fun H => conj (proj1 H) (proj1 (proj2 H) "name" "agent" _))
            (columns_reach_their_paths Engine.Date_parse Agent Sample.row
               Sample.user Sample.account Sample.category Sample.carrier Sample.agent
               empty_store Cases.agent_doc Cases.agent_store _)).
  - left.
  - vm_compute; reflexivity.
Defined.

Lemma delivers_what_is_due_witness :
  map Scheduler.status (Scheduler.posts (Scheduler.deliverScheduledPosts 2000 true Cases.steady))
  = ["delivered"; "pending"; "delivered"; "failed"].
Proof.
  rewrite (SchedulerFacts.delivers_what_is_due 2000 Cases.steady).
  - reflexivity.
  - apply (bool_decide_unpack _). vm_compute. exact I.
  - constructor.
Defined.

Lemma delivery_runs_compose_witness :
  Scheduler.posts (Scheduler.deliverScheduledPosts 6000 true
                     (Scheduler.deliverScheduledPosts 2000 true Cases.steady))
  = Scheduler.posts (Scheduler.deliverScheduledPosts 6000 true Cases.steady).
Proof.
  refine (SchedulerFacts.delivery_runs_compose 2000 6000 Cases.steady _ _ _).
  - apply (bool_decide_unpack _). vm_compute. exact I.
  - constructor.
  - lia.
Defined.

(** The failed post is not taken up again, with a store that fails. *)
Lemma delivery_touches_only_what_is_due_witness :
  Scheduler.posts (Scheduler.deliverScheduledPosts 2000 true Cases.shaky) !! 3%nat
  = Some (Scheduler.mkPost 4 "survey" 600 "failed" 40).
Proof.
  refine (proj2 (SchedulerFacts.delivery_touches_only_what_is_due 2000 true Cases.shaky _)
            3%nat _ _ _).
  - apply (bool_decide_unpack _). vm_compute. exact I.
  - reflexivity.
  - reflexivity.
Defined.

Lemma nothing_due_is_left_witness :
  Scheduler.due 2000 (Scheduler.mkPost 1 "renewal reminder" 1000 "failed" 10) = false.
Proof.
  refine (SchedulerFacts.nothing_due_is_left 2000 Cases.shaky _ _ _ _).
  - apply (bool_decide_unpack _). vm_compute. exact I.
  - reflexivity.
  - vm_compute. left.
Defined.
